(** * ZeroGravityJudge: escrow and M-of-N signed-receipt arbitration

    A shallow embedding of [smart-contracts/src/ZeroGravityJudge.sol] and the
    properties of its wager state machine.

    Conventions of the embedding.
    - [uint8], [uint16], [uint96], [uint256], [bytes32] and [address] values are
      integers of [Z] within the range of their type; checked arithmetic
      (Solidity 0.8) reverts with [Panic] when a result leaves the range, and the
      one explicit conversion [uint8(arbitrators.length)] truncates modulo 256.
    - A [mapping(address => bool)] whose entries are only ever set to [true] is
      the finite set of the keys mapped to [true]; [mapping(uint256 => Wager)]
      is a finite map read with the all-zero wager as default value.
    - A function body is a computation over the contract storage and the list of
      emitted events and outgoing token calls. A revert discards both, which
      [transact] implements; [Reverted] still carries the storage reached when
      the revert happened, so that "no write precedes this check" can be stated.
    - The token is an external contract. A call to it is recorded in the journal
      together with the storage of this contract at the moment of the call, and
      its outcome (success, or failure of the SafeERC20 wrapper) is an input of
      the transaction. Calls of the token back into this contract are not
      modelled.
    - [keccak256], OpenZeppelin's [_hashTypedDataV4] and [ECDSA.recover] are
      parameters of the development. *)

From Stdlib Require Import ZArith List String Bool Lia.
From stdpp Require Import gmap strings list fin_maps.
Import ListNotations.

Local Open Scope Z_scope.

(** ** Value types *)

Abbreviation address := Z (only parsing).
Abbreviation uint256 := Z (only parsing).
Abbreviation bytes32 := Z (only parsing).
Abbreviation bytes := (list Byte.byte) (only parsing).

Definition MAX_UINT8 : Z := 2 ^ 8 - 1.
Definition MAX_UINT16 : Z := 2 ^ 16 - 1.
Definition MAX_UINT96 : Z := 2 ^ 96 - 1.
Definition MAX_UINT160 : Z := 2 ^ 160 - 1.
Definition MAX_UINT256 : Z := 2 ^ 256 - 1.

Definition in_range (hi x : Z) : bool := (0 <=? x) && (x <=? hi).

(** ** Errors *)

(** The nine custom errors of the contract, followed by the three ways in which
    code called by the contract reverts: an arithmetic panic, a failed SafeERC20
    operation, a signature that [ECDSA.recover] rejects. *)
Inductive Error :=
| NotParty
| InvalidParams
| AlreadyFunded
| NotFunded
| AlreadyResolved
| NotArbitrator
| DuplicateReceipt
| ConfidenceTooLow
| UnknownWinner
| Panic
| SafeERC20FailedOperation
| ECDSAInvalidSignature.

(** ** Types of the contract *)

Module Side.
Inductive t := A | B.
End Side.

Record ArbitrationProfile := MkProfile {
  confidenceThresholdBps : Z;        (* uint16 *)
  m : Z;                             (* uint8 *)
  n : Z;                             (* uint8 *)
  arbitrators : list address;
  isArbitrator : gset address
}.

Record Wager := MkWager {
  partyA : address;
  partyB : address;
  token : address;
  stakeARequired : uint256;
  stakeBRequired : uint256;
  stakeA : uint256;
  stakeB : uint256;
  claim : string;
  sources : string;
  evidenceRoot : bytes32;
  evidenceURI : string;
  fundedA : bool;
  fundedB : bool;
  resolved : bool;
  winner : address;
  winningConfidenceBps : Z;          (* uint96 *)
  profile : ArbitrationProfile;
  arbitratorHasVoted : gset address;
  votesForA : uint256;
  votesForB : uint256
}.

Module Receipt.
Record ArbitrationReceipt := MkReceipt {
  wagerId : uint256;
  winner : address;
  confidenceBps : Z;               (* uint96 *)
  traceURI : string;
  timestamp : uint256
}.
End Receipt.
Abbreviation ArbitrationReceipt := Receipt.ArbitrationReceipt.

Definition ARBITRATION_RECEIPT_TYPEHASH : bytes32 :=
  0x01d54b2b3eb75c8a2d98084b5503a1c3724ec1a2a82a0289781db2acb76df2c1.

(** The value of a storage slot that was never written. *)
Definition zeroProfile : ArbitrationProfile := MkProfile 0 0 0 [] ∅.

Definition zeroWager : Wager :=
  MkWager 0 0 0 0 0 0 0 EmptyString EmptyString 0 EmptyString
          false false false 0 0 zeroProfile ∅ 0 0.

#[global] Instance Wager_inhabited : Inhabited Wager := populate zeroWager.

(** ** Storage, journal and state *)

Record Storage := MkStorage {
  nextWagerId : uint256;
  _wagers : gmap Z Wager
}.

(** What a transaction leaves behind apart from storage: the events, with the
    names and arguments of the contract, and the calls to the token. *)
Inductive Entry :=
| WagerCreated (id : Z) (a b tok : address) (reqA reqB thr m' n' : Z)
| EscrowFunded (id : Z) (party : address) (amount : Z)
| EvidenceAttached (id : Z) (root : bytes32) (uri : string)
| ReceiptAccepted (id : Z) (arbitrator win : address) (conf : Z) (uri : string)
| Resolved (id : Z) (win : address) (conf : Z)
| Payout (id : Z) (win : address) (amount : Z)
| TokenTransferFrom (tok from to : address) (amount : Z) (seen : Storage)
| TokenTransfer (tok to : address) (amount : Z) (seen : Storage).

Record State := MkState {
  storage : Storage;
  journal : list Entry
}.

Definition genesis : State := MkState (MkStorage 0 ∅) [].

(** What the transaction is given by its environment. *)
Record Env := MkEnv {
  msg_sender : address;
  token_ok : bool
}.

(** ** Field updates *)

Definition set_partyA (v : Z) (w : Wager) : Wager :=
  MkWager v (partyB w) (token w) (stakeARequired w) (stakeBRequired w) (stakeA w)
    (stakeB w) (claim w) (sources w) (evidenceRoot w) (evidenceURI w) (fundedA w)
    (fundedB w) (resolved w) (winner w) (winningConfidenceBps w) (profile w)
    (arbitratorHasVoted w) (votesForA w) (votesForB w).

Definition set_partyB (v : Z) (w : Wager) : Wager :=
  MkWager (partyA w) v (token w) (stakeARequired w) (stakeBRequired w) (stakeA w)
    (stakeB w) (claim w) (sources w) (evidenceRoot w) (evidenceURI w) (fundedA w)
    (fundedB w) (resolved w) (winner w) (winningConfidenceBps w) (profile w)
    (arbitratorHasVoted w) (votesForA w) (votesForB w).

Definition set_token (v : Z) (w : Wager) : Wager :=
  MkWager (partyA w) (partyB w) v (stakeARequired w) (stakeBRequired w) (stakeA w)
    (stakeB w) (claim w) (sources w) (evidenceRoot w) (evidenceURI w) (fundedA w)
    (fundedB w) (resolved w) (winner w) (winningConfidenceBps w) (profile w)
    (arbitratorHasVoted w) (votesForA w) (votesForB w).

Definition set_stakeARequired (v : Z) (w : Wager) : Wager :=
  MkWager (partyA w) (partyB w) (token w) v (stakeBRequired w) (stakeA w) (stakeB w)
    (claim w) (sources w) (evidenceRoot w) (evidenceURI w) (fundedA w) (fundedB w)
    (resolved w) (winner w) (winningConfidenceBps w) (profile w)
    (arbitratorHasVoted w) (votesForA w) (votesForB w).

Definition set_stakeBRequired (v : Z) (w : Wager) : Wager :=
  MkWager (partyA w) (partyB w) (token w) (stakeARequired w) v (stakeA w) (stakeB w)
    (claim w) (sources w) (evidenceRoot w) (evidenceURI w) (fundedA w) (fundedB w)
    (resolved w) (winner w) (winningConfidenceBps w) (profile w)
    (arbitratorHasVoted w) (votesForA w) (votesForB w).

Definition set_stakeA (v : Z) (w : Wager) : Wager :=
  MkWager (partyA w) (partyB w) (token w) (stakeARequired w) (stakeBRequired w) v
    (stakeB w) (claim w) (sources w) (evidenceRoot w) (evidenceURI w) (fundedA w)
    (fundedB w) (resolved w) (winner w) (winningConfidenceBps w) (profile w)
    (arbitratorHasVoted w) (votesForA w) (votesForB w).

Definition set_stakeB (v : Z) (w : Wager) : Wager :=
  MkWager (partyA w) (partyB w) (token w) (stakeARequired w) (stakeBRequired w)
    (stakeA w) v (claim w) (sources w) (evidenceRoot w) (evidenceURI w) (fundedA w)
    (fundedB w) (resolved w) (winner w) (winningConfidenceBps w) (profile w)
    (arbitratorHasVoted w) (votesForA w) (votesForB w).

Definition set_claim (v : string) (w : Wager) : Wager :=
  MkWager (partyA w) (partyB w) (token w) (stakeARequired w) (stakeBRequired w)
    (stakeA w) (stakeB w) v (sources w) (evidenceRoot w) (evidenceURI w) (fundedA w)
    (fundedB w) (resolved w) (winner w) (winningConfidenceBps w) (profile w)
    (arbitratorHasVoted w) (votesForA w) (votesForB w).

Definition set_sources (v : string) (w : Wager) : Wager :=
  MkWager (partyA w) (partyB w) (token w) (stakeARequired w) (stakeBRequired w)
    (stakeA w) (stakeB w) (claim w) v (evidenceRoot w) (evidenceURI w) (fundedA w)
    (fundedB w) (resolved w) (winner w) (winningConfidenceBps w) (profile w)
    (arbitratorHasVoted w) (votesForA w) (votesForB w).

Definition set_evidenceRoot (v : Z) (w : Wager) : Wager :=
  MkWager (partyA w) (partyB w) (token w) (stakeARequired w) (stakeBRequired w)
    (stakeA w) (stakeB w) (claim w) (sources w) v (evidenceURI w) (fundedA w)
    (fundedB w) (resolved w) (winner w) (winningConfidenceBps w) (profile w)
    (arbitratorHasVoted w) (votesForA w) (votesForB w).

Definition set_evidenceURI (v : string) (w : Wager) : Wager :=
  MkWager (partyA w) (partyB w) (token w) (stakeARequired w) (stakeBRequired w)
    (stakeA w) (stakeB w) (claim w) (sources w) (evidenceRoot w) v (fundedA w)
    (fundedB w) (resolved w) (winner w) (winningConfidenceBps w) (profile w)
    (arbitratorHasVoted w) (votesForA w) (votesForB w).

Definition set_fundedA (v : bool) (w : Wager) : Wager :=
  MkWager (partyA w) (partyB w) (token w) (stakeARequired w) (stakeBRequired w)
    (stakeA w) (stakeB w) (claim w) (sources w) (evidenceRoot w) (evidenceURI w) v
    (fundedB w) (resolved w) (winner w) (winningConfidenceBps w) (profile w)
    (arbitratorHasVoted w) (votesForA w) (votesForB w).

Definition set_fundedB (v : bool) (w : Wager) : Wager :=
  MkWager (partyA w) (partyB w) (token w) (stakeARequired w) (stakeBRequired w)
    (stakeA w) (stakeB w) (claim w) (sources w) (evidenceRoot w) (evidenceURI w)
    (fundedA w) v (resolved w) (winner w) (winningConfidenceBps w) (profile w)
    (arbitratorHasVoted w) (votesForA w) (votesForB w).

Definition set_resolved (v : bool) (w : Wager) : Wager :=
  MkWager (partyA w) (partyB w) (token w) (stakeARequired w) (stakeBRequired w)
    (stakeA w) (stakeB w) (claim w) (sources w) (evidenceRoot w) (evidenceURI w)
    (fundedA w) (fundedB w) v (winner w) (winningConfidenceBps w) (profile w)
    (arbitratorHasVoted w) (votesForA w) (votesForB w).

Definition set_winner (v : Z) (w : Wager) : Wager :=
  MkWager (partyA w) (partyB w) (token w) (stakeARequired w) (stakeBRequired w)
    (stakeA w) (stakeB w) (claim w) (sources w) (evidenceRoot w) (evidenceURI w)
    (fundedA w) (fundedB w) (resolved w) v (winningConfidenceBps w) (profile w)
    (arbitratorHasVoted w) (votesForA w) (votesForB w).

Definition set_winningConfidenceBps (v : Z) (w : Wager) : Wager :=
  MkWager (partyA w) (partyB w) (token w) (stakeARequired w) (stakeBRequired w)
    (stakeA w) (stakeB w) (claim w) (sources w) (evidenceRoot w) (evidenceURI w)
    (fundedA w) (fundedB w) (resolved w) (winner w) v (profile w)
    (arbitratorHasVoted w) (votesForA w) (votesForB w).

Definition set_profile (v : ArbitrationProfile) (w : Wager) : Wager :=
  MkWager (partyA w) (partyB w) (token w) (stakeARequired w) (stakeBRequired w)
    (stakeA w) (stakeB w) (claim w) (sources w) (evidenceRoot w) (evidenceURI w)
    (fundedA w) (fundedB w) (resolved w) (winner w) (winningConfidenceBps w) v
    (arbitratorHasVoted w) (votesForA w) (votesForB w).

Definition set_arbitratorHasVoted (v : gset address) (w : Wager) : Wager :=
  MkWager (partyA w) (partyB w) (token w) (stakeARequired w) (stakeBRequired w)
    (stakeA w) (stakeB w) (claim w) (sources w) (evidenceRoot w) (evidenceURI w)
    (fundedA w) (fundedB w) (resolved w) (winner w) (winningConfidenceBps w)
    (profile w) v (votesForA w) (votesForB w).

Definition set_votesForA (v : Z) (w : Wager) : Wager :=
  MkWager (partyA w) (partyB w) (token w) (stakeARequired w) (stakeBRequired w)
    (stakeA w) (stakeB w) (claim w) (sources w) (evidenceRoot w) (evidenceURI w)
    (fundedA w) (fundedB w) (resolved w) (winner w) (winningConfidenceBps w)
    (profile w) (arbitratorHasVoted w) v (votesForB w).

Definition set_votesForB (v : Z) (w : Wager) : Wager :=
  MkWager (partyA w) (partyB w) (token w) (stakeARequired w) (stakeBRequired w)
    (stakeA w) (stakeB w) (claim w) (sources w) (evidenceRoot w) (evidenceURI w)
    (fundedA w) (fundedB w) (resolved w) (winner w) (winningConfidenceBps w)
    (profile w) (arbitratorHasVoted w) (votesForA w) v.

Definition set_confidenceThresholdBps (v : Z) (p : ArbitrationProfile) : ArbitrationProfile :=
  MkProfile v (m p) (n p) (arbitrators p) (isArbitrator p).

Definition set_m (v : Z) (p : ArbitrationProfile) : ArbitrationProfile :=
  MkProfile (confidenceThresholdBps p) v (n p) (arbitrators p) (isArbitrator p).

Definition set_n (v : Z) (p : ArbitrationProfile) : ArbitrationProfile :=
  MkProfile (confidenceThresholdBps p) (m p) v (arbitrators p) (isArbitrator p).

Definition set_arbitrators (v : list address) (p : ArbitrationProfile) : ArbitrationProfile :=
  MkProfile (confidenceThresholdBps p) (m p) (n p) v (isArbitrator p).

Definition set_isArbitrator (v : gset address) (p : ArbitrationProfile) : ArbitrationProfile :=
  MkProfile (confidenceThresholdBps p) (m p) (n p) (arbitrators p) v.

(** [w.profile.isArbitrator[a] = true]. *)
Definition mark_arbitrator (a : address) (w : Wager) : Wager :=
  set_profile (set_isArbitrator ({[a]} ∪ isArbitrator (profile w)) (profile w)) w.

(** ** The monad of function bodies *)

Inductive Outcome (T : Type) : Type :=
| Done (x : T) (st : State)
| Reverted (e : Error) (st : State).
Arguments Done {T} x st.
Arguments Reverted {T} e st.

Definition M (T : Type) : Type := Env -> State -> Outcome T.

#[global] Instance M_ret : MRet M := fun T x _ st => Done x st.

#[global] Instance M_bind : MBind M := fun T U k c env st =>
  match c env st with
  | Done x st' => k x env st'
  | Reverted e st' => Reverted e st'
  end.

Definition revert {T : Type} (e : Error) : M T := fun _ st => Reverted e st.

Definition msg_sender_ : M address := fun env st => Done (msg_sender env) st.

Definition wager_at (s : Storage) (id : Z) : Wager := _wagers s !!! id.

(** [Wager storage w = _wagers[id]] followed by reads of [w]. *)
Definition sload (id : Z) : M Wager := fun _ st => Done (wager_at (storage st) id) st.

Definition update_wager (id : Z) (f : Wager -> Wager) (s : Storage) : Storage :=
  MkStorage (nextWagerId s) (<[id := f (wager_at s id)]> (_wagers s)).

(** A write through the storage pointer [w]. *)
Definition sstore (id : Z) (f : Wager -> Wager) : M unit := fun _ st =>
  Done tt (MkState (update_wager id f (storage st)) (journal st)).

Definition emit (e : Entry) : M unit := fun _ st =>
  Done tt (MkState (storage st) (journal st ++ [e])).

(** [a + b] on [uint256]. *)
Definition checked_add (a b : Z) : M Z :=
  if a + b <=? MAX_UINT256 then mret (a + b) else revert Panic.

(** [++nextWagerId]. *)
Definition pre_increment_nextWagerId : M Z := fun _ st =>
  let v := nextWagerId (storage st) + 1 in
  if v <=? MAX_UINT256
  then Done v (MkState (MkStorage v (_wagers (storage st))) (journal st))
  else Reverted Panic st.

(** [for (uint256 i; i < xs.length; i++) body(xs[i])]. *)
Fixpoint for_each {T : Type} (xs : list T) (body : T -> M unit) : M unit :=
  match xs with
  | [] => mret tt
  | x :: xs' => body x ;; for_each xs' body
  end.

(** SafeERC20: the call is made on the storage as it is now; when the token
    fails or answers [false] the wrapper reverts. *)
Definition external_call (e : Storage -> Entry) : M unit := fun env st =>
  let st' := MkState (storage st) (journal st ++ [e (storage st)]) in
  if token_ok env then Done tt st' else Reverted SafeERC20FailedOperation st'.

Definition safeTransferFrom (tok from to : address) (amount : Z) : M unit :=
  external_call (TokenTransferFrom tok from to amount).

Definition safeTransfer (tok to : address) (amount : Z) : M unit :=
  external_call (TokenTransfer tok to amount).

(** ** ABI encoding of static words *)

Definition byte_of_Z (z : Z) : Byte.byte :=
  match Byte.of_N (Z.to_N (Z.land z 255)) with
  | Some b => b
  | None => Byte.x00
  end.

(** A 32-byte big-endian word. *)
Definition abi_word (z : Z) : bytes :=
  map (fun i : nat => byte_of_Z (Z.shiftr z (8 * (31 - Z.of_nat i)))) (seq 0 32).

Definition abi_encode (ws : list Z) : bytes := concat (map abi_word ws).

(** ** What the contract takes from its libraries and its deployment

    The address of the contract, [keccak256], OpenZeppelin's [_hashTypedDataV4]
    (EIP712) and [ECDSA.recover], which is [None] when it reverts. *)
Class Primitives := MkPrimitives {
  this : address;
  keccak256 : bytes -> bytes32;
  _hashTypedDataV4 : bytes32 -> bytes32;
  ECDSA_recover : bytes32 -> bytes -> option address
}.

(** ** The functions of the contract

    [Wager storage w = _wagers[id]] is a pointer: [sload] reads through it and
    [sstore] writes through it. A field that the function has not written since
    its first read is taken from that read. *)

Section Judge.

Context {prim : Primitives}.

Definition createWager (partyB' token' stakeARequired' stakeBRequired' : Z)
    (claim' sources' : string) (confidenceThresholdBps' m' : Z)
    (arbitrators' : list address) : M Z :=
  let len := Z.of_nat (length arbitrators') in
  if (partyB' =? 0) || (token' =? 0) then revert InvalidParams else
  if (stakeARequired' =? 0) || (stakeBRequired' =? 0) then revert InvalidParams else
  if (confidenceThresholdBps' =? 0) || (confidenceThresholdBps' >? 10000)
  then revert InvalidParams else
  if len =? 0 then revert InvalidParams else
  if (m' =? 0) || (m' >? len) then revert InvalidParams else
  id ← pre_increment_nextWagerId;
  caller ← msg_sender_;
  sstore id (set_partyA caller) ;;
  sstore id (set_partyB partyB') ;;
  sstore id (set_token token') ;;
  sstore id (set_stakeARequired stakeARequired') ;;
  sstore id (set_stakeBRequired stakeBRequired') ;;
  sstore id (set_claim claim') ;;
  sstore id (set_sources sources') ;;
  sstore id (fun w =>
    set_profile (set_confidenceThresholdBps confidenceThresholdBps' (profile w)) w) ;;
  sstore id (fun w => set_profile (set_m m' (profile w)) w) ;;
  sstore id (fun w => set_profile (set_n (len mod 256) (profile w)) w) ;;
  sstore id (fun w => set_profile (set_arbitrators arbitrators' (profile w)) w) ;;
  for_each arbitrators' (fun a => sstore id (mark_arbitrator a)) ;;
  w ← sload id;
  emit (WagerCreated id (partyA w) (partyB w) token' stakeARequired' stakeBRequired'
          confidenceThresholdBps' m' (len mod 256)) ;;
  mret id.

Definition fundEscrow (id : Z) (side : Side.t) : M unit :=
  w ← sload id;
  caller ← msg_sender_;
  if partyA w =? 0 then revert InvalidParams else
  if resolved w then revert AlreadyResolved else
  match side with
  | Side.A =>
      if negb (caller =? partyA w) then revert NotParty else
      if fundedA w then revert AlreadyFunded else
      safeTransferFrom (token w) caller this (stakeARequired w) ;;
      sstore id (set_fundedA true) ;;
      sum ← checked_add (stakeA w) (stakeARequired w);
      sstore id (set_stakeA sum) ;;
      emit (EscrowFunded id caller (stakeARequired w))
  | Side.B =>
      if negb (caller =? partyB w) then revert NotParty else
      if fundedB w then revert AlreadyFunded else
      safeTransferFrom (token w) caller this (stakeBRequired w) ;;
      sstore id (set_fundedB true) ;;
      sum ← checked_add (stakeB w) (stakeBRequired w);
      sstore id (set_stakeB sum) ;;
      emit (EscrowFunded id caller (stakeBRequired w))
  end.

Definition attachEvidence (id : Z) (root : bytes32) (uri : string) : M unit :=
  w ← sload id;
  caller ← msg_sender_;
  if negb (caller =? partyA w) && negb (caller =? partyB w) then revert NotParty else
  sstore id (set_evidenceRoot root) ;;
  sstore id (set_evidenceURI uri) ;;
  emit (EvidenceAttached id root uri).

Definition _hashReceiptTyped (r : ArbitrationReceipt) : bytes32 :=
  let structHash :=
    keccak256
      (abi_encode
         [ ARBITRATION_RECEIPT_TYPEHASH;
           Receipt.wagerId r;
           Receipt.winner r;
           Receipt.confidenceBps r;
           keccak256 (list_byte_of_string (Receipt.traceURI r));
           Receipt.timestamp r ]) in
  _hashTypedDataV4 structHash.

Definition receiptDigest (r : ArbitrationReceipt) : bytes32 := _hashReceiptTyped r.

Definition recover (digest : bytes32) (signature : bytes) : M address :=
  match ECDSA_recover digest signature with
  | Some signer => mret signer
  | None => revert ECDSAInvalidSignature
  end.

Definition _finalize (id : Z) (winner' : address) (confidenceBps' : Z) : M unit :=
  w ← sload id;
  if resolved w then revert AlreadyResolved else
  sstore id (set_resolved true) ;;
  sstore id (set_winner winner') ;;
  sstore id (set_winningConfidenceBps confidenceBps') ;;
  emit (Resolved id winner' confidenceBps') ;;
  pot ← checked_add (stakeA w) (stakeB w);
  sstore id (set_stakeA 0) ;;
  sstore id (set_stakeB 0) ;;
  safeTransfer (token w) winner' pot ;;
  emit (Payout id winner' pot).

Definition submitReceipt (r : ArbitrationReceipt) (signature : bytes) : M unit :=
  let id := Receipt.wagerId r in
  w ← sload id;
  if partyA w =? 0 then revert InvalidParams else
  if negb (fundedA w) || negb (fundedB w) then revert NotFunded else
  if resolved w then revert AlreadyResolved else
  let digest := _hashReceiptTyped r in
  signer ← recover digest signature;
  if negb (bool_decide (signer ∈ isArbitrator (profile w))) then revert NotArbitrator else
  if bool_decide (signer ∈ arbitratorHasVoted w) then revert DuplicateReceipt else
  if Receipt.confidenceBps r <? confidenceThresholdBps (profile w)
  then revert ConfidenceTooLow else
  if negb (Receipt.winner r =? partyA w) && negb (Receipt.winner r =? partyB w)
  then revert UnknownWinner else
  sstore id (set_arbitratorHasVoted ({[signer]} ∪ arbitratorHasVoted w)) ;;
  (if Receipt.winner r =? partyA w
   then v ← checked_add (votesForA w) 1; sstore id (set_votesForA v)
   else v ← checked_add (votesForB w) 1; sstore id (set_votesForB v)) ;;
  emit (ReceiptAccepted id signer (Receipt.winner r) (Receipt.confidenceBps r)
          (Receipt.traceURI r)) ;;
  w' ← sload id;
  if votesForA w' >=? m (profile w') then
    _finalize id (partyA w') (Receipt.confidenceBps r)
  else if votesForB w' >=? m (profile w') then
    _finalize id (partyB w') (Receipt.confidenceBps r)
  else mret tt.

(** ** Transactions *)

Inductive Call :=
| CreateWager (partyB' token' stakeARequired' stakeBRequired' : Z)
    (claim' sources' : string) (confidenceThresholdBps' m' : Z)
    (arbitrators' : list address)
| FundEscrow (id : Z) (side : Side.t)
| AttachEvidence (id : Z) (root : bytes32) (uri : string)
| SubmitReceipt (r : ArbitrationReceipt) (signature : bytes).

Definition run (c : Call) : M unit :=
  match c with
  | CreateWager b t ra rb cl so thr m' arbs =>
      createWager b t ra rb cl so thr m' arbs ;; mret tt
  | FundEscrow id side => fundEscrow id side
  | AttachEvidence id root uri => attachEvidence id root uri
  | SubmitReceipt r signature => submitReceipt r signature
  end.

(** A transaction either commits the state its body reaches or, when the
    body reverts, leaves the state as it was. *)
Definition transact (env : Env) (c : Call) (st : State) : State * option Error :=
  match run c env st with
  | Done _ st' => (st', None)
  | Reverted e _ => (st, Some e)
  end.

(** The arguments the ABI decoder lets through. *)
Definition wf_receipt (r : ArbitrationReceipt) : bool :=
  in_range MAX_UINT256 (Receipt.wagerId r) &&
  in_range MAX_UINT160 (Receipt.winner r) &&
  in_range MAX_UINT96 (Receipt.confidenceBps r) &&
  in_range MAX_UINT256 (Receipt.timestamp r).

Definition wf_call (c : Call) : bool :=
  match c with
  | CreateWager b t ra rb _ _ thr m' arbs =>
      in_range MAX_UINT160 b && in_range MAX_UINT160 t &&
      in_range MAX_UINT256 ra && in_range MAX_UINT256 rb &&
      in_range MAX_UINT16 thr && in_range MAX_UINT8 m' &&
      forallb (in_range MAX_UINT160) arbs
  | FundEscrow id _ => in_range MAX_UINT256 id
  | AttachEvidence id root _ => in_range MAX_UINT256 id && in_range MAX_UINT256 root
  | SubmitReceipt r _ => wf_receipt r
  end.

Definition wf_env (env : Env) : bool := in_range MAX_UINT160 (msg_sender env).

(** The states of the contract: those reached from deployment by transactions
    of any callers, reverted or not. *)
Inductive reachable : State -> Prop :=
| reachable_genesis : reachable genesis
| reachable_transact env c st :
    reachable st -> wf_env env = true -> wf_call c = true ->
    reachable (fst (transact env c st)).

(** A wager has been created under [id]. *)
Definition created (s : Storage) (id : Z) : Prop := 1 <= id <= nextWagerId s.

(** The number of times [_finalize] got past its guard for wager [id]. *)
Definition is_Resolved (id : Z) (e : Entry) : bool :=
  match e with
  | Resolved id' _ _ => id' =? id
  | _ => false
  end.

Definition finalize_count (id : Z) (j : list Entry) : nat :=
  length (List.filter (is_Resolved id) j).

(** ** Composite writes, the invariant and the guards as a function *)

(** All the writes of [_finalize] to the wager. *)
Definition finalized (win : address) (conf : Z) (x : Wager) : Wager :=
  set_stakeB 0 (set_stakeA 0
    (set_winningConfidenceBps conf (set_winner win (set_resolved true x)))).

(** The writes of [submitReceipt] for an accepted vote of [signer], for
    [partyA] when [forA] holds: [w] is the wager as read on entry, [x] the wager
    written to. *)
Definition voted (signer : address) (forA : bool) (w x : Wager) : Wager :=
  if forA
  then set_votesForA (votesForA w + 1)
         (set_arbitratorHasVoted ({[signer]} ∪ arbitratorHasVoted w) x)
  else set_votesForB (votesForB w + 1)
         (set_arbitratorHasVoted ({[signer]} ∪ arbitratorHasVoted w) x).

(** All the writes of [createWager] to the slot of the new wager. *)
Definition created_wager (caller b t ra rb : Z) (cl so : string) (thr m' : Z)
    (arbs : list address) (x : Wager) : Wager :=
  let len := Z.of_nat (length arbs) in
  fold_left (fun acc a => mark_arbitrator a acc) arbs
    (set_profile
       (MkProfile thr m' (len mod 256) arbs (isArbitrator (profile x)))
       (set_sources so (set_claim cl (set_stakeBRequired rb (set_stakeARequired ra
          (set_token t (set_partyB b (set_partyA caller x)))))))).

(** A slot under which no wager has been created. Only the fields that the
    functions guard on are constrained: [attachEvidence] can be called on it
    by the zero address. *)
Record fresh (w : Wager) : Prop := MkFresh {
  f_partyA : partyA w = 0;
  f_partyB : partyB w = 0;
  f_stakes : stakeA w = 0 /\ stakeB w = 0;
  f_funded : fundedA w = false /\ fundedB w = false;
  f_resolved : resolved w = false;
  f_panel : isArbitrator (profile w) = ∅;
  f_voters : arbitratorHasVoted w = ∅;
  f_votes : votesForA w = 0 /\ votesForB w = 0
}.

(** A created wager, with [k] the number of its [Resolved] events so far. *)
Record sound (w : Wager) (k : nat) : Prop := MkSound {
  s_m : 1 <= m (profile w) <= Z.of_nat (length (arbitrators (profile w)));
  s_m8 : m (profile w) <= MAX_UINT8;
  s_n : n (profile w) = Z.of_nat (length (arbitrators (profile w))) mod 256;
  s_thr : 1 <= confidenceThresholdBps (profile w) <= 10000;
  s_req : 1 <= stakeARequired w <= MAX_UINT256 /\ 1 <= stakeBRequired w <= MAX_UINT256;
  s_panel : isArbitrator (profile w) = list_to_set (arbitrators (profile w));
  s_voters : arbitratorHasVoted w ⊆ isArbitrator (profile w);
  s_tally : votesForA w + votesForB w = Z.of_nat (size (arbitratorHasVoted w));
  s_votes : 0 <= votesForA w /\ 0 <= votesForB w;
  s_resolved :
    resolved w = true <-> m (profile w) <= votesForA w \/ m (profile w) <= votesForB w;
  s_escrow :
    resolved w = false ->
    stakeA w = (if fundedA w then stakeARequired w else 0) /\
    stakeB w = (if fundedB w then stakeBRequired w else 0);
  s_final :
    resolved w = true ->
    (stakeA w = 0 /\ stakeB w = 0) /\ (fundedA w = true /\ fundedB w = true) /\
    (winner w = partyA w \/ winner w = partyB w) /\
    confidenceThresholdBps (profile w) <= winningConfidenceBps w <= MAX_UINT96;
  s_funded : fundedA w = true \/ fundedB w = true -> partyA w <> 0;
  s_voted :
    forall a, a ∈ arbitratorHasVoted w -> fundedA w = true /\ fundedB w = true;
  s_once : k = if resolved w then 1%nat else 0%nat
}.

Definition invariant (st : State) : Prop :=
  0 <= nextWagerId (storage st) <= MAX_UINT256 /\
  forall id,
    (created (storage st) id ->
     sound (wager_at (storage st) id) (finalize_count id (journal st))) /\
    (~ created (storage st) id ->
     fresh (wager_at (storage st) id) /\ finalize_count id (journal st) = 0%nat).

(** An outcome that is none of the errors of the contract: completion, an
    arithmetic panic or a refused token transfer. *)
Definition benign {T : Type} (o : Outcome T) : Prop :=
  (exists x st', o = Done x st') \/
  (exists st', o = Reverted Panic st') \/
  (exists st', o = Reverted SafeERC20FailedOperation st').

(** The side, if any, whose count has reached [m]: the test that
    [submitReceipt] makes after counting the vote. *)
Definition quorum_winner (w : Wager) : option address :=
  if votesForA w >=? m (profile w) then Some (partyA w)
  else if votesForB w >=? m (profile w) then Some (partyB w)
  else None.

Definition receipt_entry (signer : address) (r : ArbitrationReceipt) : Entry :=
  ReceiptAccepted (Receipt.wagerId r) signer (Receipt.winner r) (Receipt.confidenceBps r)
    (Receipt.traceURI r).

(** The state that an accepted receipt of [signer] leads to. *)
Definition after_receipt (signer : address) (r : ArbitrationReceipt) (st : State) : State :=
  let id := Receipt.wagerId r in
  let w := wager_at (storage st) id in
  let forA := Receipt.winner r =? partyA w in
  match quorum_winner (voted signer forA w w) with
  | None =>
      MkState (update_wager id (voted signer forA w) (storage st))
        (journal st ++ [receipt_entry signer r])
  | Some win =>
      let s' := update_wager id
                  (fun x => finalized win (Receipt.confidenceBps r) (voted signer forA w x))
                  (storage st) in
      MkState s'
        (journal st ++
           [receipt_entry signer r;
            Resolved id win (Receipt.confidenceBps r);
            TokenTransfer (token w) win (stakeA w + stakeB w) s';
            Payout id win (stakeA w + stakeB w)])
  end.

(** The guards of [submitReceipt] as a function of the state: the error of
    the first guard that fails, if any does. *)
Definition rejection (r : ArbitrationReceipt) (signature : bytes) (st : State)
    : option Error :=
  let w := wager_at (storage st) (Receipt.wagerId r) in
  if partyA w =? 0 then Some InvalidParams else
  if negb (fundedA w) || negb (fundedB w) then Some NotFunded else
  if resolved w then Some AlreadyResolved else
  match ECDSA_recover (_hashReceiptTyped r) signature with
  | None => Some ECDSAInvalidSignature
  | Some signer =>
      if negb (bool_decide (signer ∈ isArbitrator (profile w))) then Some NotArbitrator else
      if bool_decide (signer ∈ arbitratorHasVoted w) then Some DuplicateReceipt else
      if Receipt.confidenceBps r <? confidenceThresholdBps (profile w)
      then Some ConfidenceTooLow else
      if negb (Receipt.winner r =? partyA w) && negb (Receipt.winner r =? partyB w)
      then Some UnknownWinner else None
  end.

(** ** The read functions *)

Definition getWagerCore (id : Z)
    : M (address * address * address * Z * Z * bool * bool * bool * address * Z) :=
  w ← sload id;
  mret (partyA w, partyB w, token w, stakeARequired w, stakeBRequired w,
        fundedA w, fundedB w, resolved w, winner w, winningConfidenceBps w).

Definition getWagerMeta (id : Z) : M (bytes32 * string * string * string) :=
  w ← sload id;
  mret (evidenceRoot w, evidenceURI w, claim w, sources w).

Definition getWagerProfile (id : Z) : M (Z * Z * Z * list address) :=
  w ← sload id;
  mret (confidenceThresholdBps (profile w), m (profile w), n (profile w),
        arbitrators (profile w)).

Definition getWagerVotes (id : Z) : M (Z * Z) :=
  w ← sload id;
  mret (votesForA w, votesForB w).

(** ** Committed transactions

    What a transaction that does not revert does to the state, one rule for
    each function that writes. *)

Definition side_party (side : Side.t) (w : Wager) : address :=
  match side with Side.A => partyA w | Side.B => partyB w end.

Definition side_funded (side : Side.t) (w : Wager) : bool :=
  match side with Side.A => fundedA w | Side.B => fundedB w end.

Definition side_required (side : Side.t) (w : Wager) : Z :=
  match side with Side.A => stakeARequired w | Side.B => stakeBRequired w end.

Definition side_stake (side : Side.t) (w : Wager) : Z :=
  match side with Side.A => stakeA w | Side.B => stakeB w end.

(** The writes of [fundEscrow] for [side]: [w] is the wager as read on entry,
    [x] the wager written to. *)
Definition funded_side (side : Side.t) (w x : Wager) : Wager :=
  match side with
  | Side.A => set_stakeA (stakeA w + stakeARequired w) (set_fundedA true x)
  | Side.B => set_stakeB (stakeB w + stakeBRequired w) (set_fundedB true x)
  end.

Inductive commits (st : State) : State -> Prop :=
| commits_createWager caller b t ra rb cl so thr m' arbs :
    let len := Z.of_nat (length arbs) in
    let id := nextWagerId (storage st) + 1 in
    (b <> 0 /\ t <> 0 /\ ra <> 0 /\ rb <> 0) ->
    (thr <> 0 /\ thr <= 10000 /\ 1 <= len /\ m' <> 0 /\ m' <= len) ->
    id <= MAX_UINT256 ->
    commits st
      (MkState
         (update_wager id (created_wager caller b t ra rb cl so thr m' arbs)
            (MkStorage id (_wagers (storage st))))
         (journal st ++ [WagerCreated id caller b t ra rb thr m' (len mod 256)]))
| commits_fundEscrow id side :
    let w := wager_at (storage st) id in
    partyA w <> 0 -> resolved w = false -> side_funded side w = false ->
    side_stake side w + side_required side w <= MAX_UINT256 ->
    commits st
      (MkState
         (update_wager id (funded_side side w) (storage st))
         (journal st ++
            [TokenTransferFrom (token w) (side_party side w) this (side_required side w)
               (storage st);
             EscrowFunded id (side_party side w) (side_required side w)]))
| commits_attachEvidence id root uri caller :
    let w := wager_at (storage st) id in
    caller = partyA w \/ caller = partyB w ->
    commits st
      (MkState
         (update_wager id (fun x => set_evidenceURI uri (set_evidenceRoot root x))
            (storage st))
         (journal st ++ [EvidenceAttached id root uri]))
| commits_submitReceipt signer r :
    let w := wager_at (storage st) (Receipt.wagerId r) in
    (partyA w <> 0 /\ fundedA w = true /\ fundedB w = true /\ resolved w = false) ->
    (signer ∈ isArbitrator (profile w) /\ signer ∉ arbitratorHasVoted w) ->
    confidenceThresholdBps (profile w) <= Receipt.confidenceBps r ->
    Receipt.winner r = partyA w \/ Receipt.winner r = partyB w ->
    (quorum_winner (voted signer (Receipt.winner r =? partyA w) w w) <> None ->
     stakeA w + stakeB w <= MAX_UINT256) ->
    commits st (after_receipt signer r st).

(** ** What the journal says about a wager and about a token *)

Definition count_entries (p : Entry -> bool) (j : list Entry) : Z :=
  Z.of_nat (length (List.filter p j)).

Definition is_WagerCreated (e : Entry) : bool :=
  match e with WagerCreated _ _ _ _ _ _ _ _ _ => true | _ => false end.

Definition is_EscrowFunded (id : Z) (e : Entry) : bool :=
  match e with EscrowFunded id' _ _ => id' =? id | _ => false end.

Definition is_ReceiptAccepted (id : Z) (e : Entry) : bool :=
  match e with ReceiptAccepted id' _ _ _ _ => id' =? id | _ => false end.

Definition is_Payout (id : Z) (e : Entry) : bool :=
  match e with Payout id' _ _ => id' =? id | _ => false end.

(** The amount of [tok] that an entry moves into the contract, and out of it. *)
Definition inflow (tok : address) (e : Entry) : Z :=
  match e with
  | TokenTransferFrom t _ _ amount _ => if t =? tok then amount else 0
  | _ => 0
  end.

Definition outflow (tok : address) (e : Entry) : Z :=
  match e with
  | TokenTransfer t _ amount _ => if t =? tok then amount else 0
  | _ => 0
  end.

Definition total (f : Entry -> Z) (j : list Entry) : Z :=
  fold_right (fun e acc => f e + acc) 0 j.

(** What wager [w] holds of token [tok], and what the wagers 1 to [k] hold. *)
Definition held (tok : address) (w : Wager) : Z :=
  if token w =? tok then stakeA w + stakeB w else 0.

Fixpoint held_upto (tok : address) (s : Storage) (k : nat) : Z :=
  match k with
  | O => 0
  | S k' => held tok (wager_at s (Z.of_nat k)) + held_upto tok s k'
  end.

Definition escrowed (tok : address) (s : Storage) : Z :=
  held_upto tok s (Z.to_nat (nextWagerId s)).

Definition b2z (b : bool) : Z := if b then 1 else 0.

(** A slot that only [attachEvidence] may have written. *)
Definition blank (w : Wager) : Prop :=
  set_evidenceURI EmptyString (set_evidenceRoot 0 w) = zeroWager.

(** The second part of the invariant: how the counts relate to [m] and to the
    winner, and what the journal holds for the wager under [id]. *)
Record settled (w : Wager) (j : list Entry) (id : Z) : Prop := MkSettled {
  t_cap : votesForA w <= m (profile w) /\ votesForB w <= m (profile w);
  t_winner :
    resolved w = true ->
    (winner w = partyA w /\ votesForA w = m (profile w) /\ votesForB w < m (profile w)) \/
    (winner w = partyB w /\ votesForB w = m (profile w) /\ votesForA w < m (profile w));
  t_pot : resolved w = true -> stakeARequired w + stakeBRequired w <= MAX_UINT256;
  t_funded : count_entries (is_EscrowFunded id) j = b2z (fundedA w) + b2z (fundedB w);
  t_accepted : count_entries (is_ReceiptAccepted id) j = votesForA w + votesForB w;
  t_resolved : count_entries (is_Resolved id) j = b2z (resolved w);
  t_payout : count_entries (is_Payout id) j = b2z (resolved w)
}.

(** No entry of [j] is an event of the wager under [id]. *)
Definition quiet (id : Z) (j : list Entry) : Prop :=
  count_entries (is_EscrowFunded id) j = 0 /\
  count_entries (is_ReceiptAccepted id) j = 0 /\
  count_entries (is_Resolved id) j = 0 /\
  count_entries (is_Payout id) j = 0.

(** For every token, what came in less what went out is what the wagers hold. *)
Definition ledger (st : State) : Prop :=
  forall tok,
    total (inflow tok) (journal st) - total (outflow tok) (journal st) =
    escrowed tok (storage st).

Definition audit (st : State) : Prop :=
  count_entries is_WagerCreated (journal st) = nextWagerId (storage st) /\
  (forall id, settled (wager_at (storage st) id) (journal st) id) /\
  (forall id, ~ created (storage st) id -> blank (wager_at (storage st) id)) /\
  ledger st.

(** Every pull of tokens is a transfer to the contract itself. *)
Definition pulls_to_this (j : list Entry) : Prop :=
  Forall (fun e => match e with
                   | TokenTransferFrom _ _ to _ _ => to = this
                   | _ => True
                   end) j.

(** The terms of a wager, which no function changes once it is created. *)
Definition same_terms (w w' : Wager) : Prop :=
  partyA w' = partyA w /\ partyB w' = partyB w /\ token w' = token w /\
  stakeARequired w' = stakeARequired w /\ stakeBRequired w' = stakeBRequired w /\
  claim w' = claim w /\ sources w' = sources w /\ profile w' = profile w.

(** What changes between [w] and [w'] when nothing but evidence is written. *)
Definition same_but_evidence (w w' : Wager) : Prop :=
  set_evidenceURI (evidenceURI w) (set_evidenceRoot (evidenceRoot w) w') = w.

(** How a created wager can differ after a transaction: its terms are kept,
    flags and counts only go up, and a resolved wager keeps all but its
    evidence. *)
Record grows (w w' : Wager) : Prop := MkGrows {
  g_terms : same_terms w w';
  g_fundedA : fundedA w = true -> fundedA w' = true;
  g_fundedB : fundedB w = true -> fundedB w' = true;
  g_resolved : resolved w = true -> resolved w' = true;
  g_votes : votesForA w <= votesForA w' /\ votesForB w <= votesForB w';
  g_voters : arbitratorHasVoted w ⊆ arbitratorHasVoted w';
  g_terminal : resolved w = true -> same_but_evidence w w'
}.

(** The arguments of [createWager] that pass its checks. *)
Definition createWager_valid (b t ra rb thr m' : Z) (arbs : list address) : Prop :=
  b <> 0 /\ t <> 0 /\ ra <> 0 /\ rb <> 0 /\
  thr <> 0 /\ thr <= 10000 /\ arbs <> [] /\
  m' <> 0 /\ m' <= Z.of_nat (length arbs).

(** The six words that [_hashReceiptTyped] encodes and hashes. *)
Definition receipt_words (r : ArbitrationReceipt) : list Z :=
  [ ARBITRATION_RECEIPT_TYPEHASH;
    Receipt.wagerId r;
    Receipt.winner r;
    Receipt.confidenceBps r;
    keccak256 (list_byte_of_string (Receipt.traceURI r));
    Receipt.timestamp r ].

(** Reading a big-endian word back. *)
Definition word_of_bytes (bs : bytes) : Z :=
  fold_left (fun acc b => acc * 256 + Z.of_N (Byte.to_N b)) bs 0.

(** Splitting an encoding into its 32-byte words. *)
Fixpoint abi_decode (count : nat) (bs : bytes) : list Z :=
  match count with
  | O => []
  | S count' => word_of_bytes (firstn 32 bs) :: abi_decode count' (skipn 32 bs)
  end.


End Judge.

(** ** The contract on concrete inputs

    A deployment with trivial primitives, to run the contract with: the hash is
    constant and a signature is the one byte that names its signer. Parties 10
    and 11 stake 100 each on token 50; two of the arbitrators 88, 89, 90 decide. *)

Definition demo_recover (_ : bytes32) (signature : bytes) : option address :=
  match signature with
  | [b] => Some (Z.of_N (Byte.to_N b))
  | _ => None
  end.

Definition demo : Primitives :=
  MkPrimitives 999 (fun _ => 0) (fun h => h) demo_recover.

Definition signed_by (a : address) : bytes := [byte_of_Z a].

Definition demo_step (env : Env) (c : Call) (st : State) : State :=
  fst (transact (prim := demo) env c st).

Definition demo_receipt (win : address) (conf : Z) : ArbitrationReceipt :=
  Receipt.MkReceipt 1 win conf "ipfs://trace" 1700000000.

Definition demo_created : State :=
  demo_step (MkEnv 10 true)
    (CreateWager 11 50 100 100 "claim" "sources" 8000 2 [88; 89; 90]) genesis.

Definition demo_half_funded : State :=
  demo_step (MkEnv 10 true) (FundEscrow 1 Side.A) demo_created.

Definition demo_funded : State :=
  demo_step (MkEnv 11 true) (FundEscrow 1 Side.B) demo_half_funded.

Definition demo_one_vote : State :=
  demo_step (MkEnv 77 true) (SubmitReceipt (demo_receipt 10 9000) (signed_by 88)) demo_funded.

Definition demo_resolved : State :=
  demo_step (MkEnv 77 true) (SubmitReceipt (demo_receipt 10 8500) (signed_by 89))
    demo_one_vote.

(** The same wager decided by a receipt that claims a confidence of 20000. *)
Definition demo_overconfident : State :=
  demo_step (MkEnv 77 true) (SubmitReceipt (demo_receipt 10 20000) (signed_by 89))
    demo_one_vote.

(** A wager with a panel of 256 arbitrators, the addresses 1 to 256, one of whom
    decides; both sides fund it and arbitrator 5 votes. *)
Definition large_panel : list address := map Z.of_nat (seq 1 256).

Definition demo_large_created : State :=
  demo_step (MkEnv 10 true)
    (CreateWager 11 50 100 100 "claim" "sources" 8000 1 large_panel) genesis.

Definition demo_large_voted : State :=
  demo_step (MkEnv 77 true) (SubmitReceipt (demo_receipt 10 9000) (signed_by 5))
    (demo_step (MkEnv 11 true) (FundEscrow 1 Side.B)
       (demo_step (MkEnv 10 true) (FundEscrow 1 Side.A) demo_large_created)).

(** A wager whose list of arbitrators names address 88 twice, with [m] two:
    both sides fund it and the one arbitrator votes. *)
Definition demo_twice_created : State :=
  demo_step (MkEnv 10 true)
    (CreateWager 11 50 100 100 "claim" "sources" 8000 2 [88; 88]) genesis.

Definition demo_twice_funded : State :=
  demo_step (MkEnv 11 true) (FundEscrow 1 Side.B)
    (demo_step (MkEnv 10 true) (FundEscrow 1 Side.A) demo_twice_created).

Definition demo_twice_voted : State :=
  demo_step (MkEnv 77 true) (SubmitReceipt (demo_receipt 10 9000) (signed_by 88))
    demo_twice_funded.

(** A wager of party 10 against itself, decided by arbitrator 88 alone. *)
Definition demo_self_created : State :=
  demo_step (MkEnv 10 true)
    (CreateWager 10 50 100 100 "claim" "sources" 8000 1 [88]) genesis.

Definition demo_self_funded : State :=
  demo_step (MkEnv 10 true) (FundEscrow 1 Side.B)
    (demo_step (MkEnv 10 true) (FundEscrow 1 Side.A) demo_self_created).

Definition demo_self_resolved : State :=
  demo_step (MkEnv 77 true) (SubmitReceipt (demo_receipt 10 9000) (signed_by 88))
    demo_self_funded.

(** * Properties of the contract *)

Section Properties.

Context {prim : Primitives}.

(** ** Storage algebra *)

Lemma wager_at_update_eq id f s :
  wager_at (update_wager id f s) id = f (wager_at s id).
Proof. unfold wager_at, update_wager; cbn. apply lookup_total_insert_eq. Qed.

Lemma wager_at_update_ne id id' f s :
  id ≠ id' -> wager_at (update_wager id f s) id' = wager_at s id'.
Proof. intros Hne. unfold wager_at, update_wager; cbn. by apply lookup_total_insert_ne. Qed.

Lemma wager_at_update id id' f s :
  wager_at (update_wager id f s) id' =
  if decide (id = id') then f (wager_at s id) else wager_at s id'.
Proof.
  case_decide as Hid.
  - subst id'. apply wager_at_update_eq.
  - by apply wager_at_update_ne.
Qed.

Lemma update_wager_twice id f g s :
  update_wager id g (update_wager id f s) = update_wager id (fun w => g (f w)) s.
Proof.
  unfold update_wager at 1. rewrite wager_at_update_eq.
  unfold update_wager; cbn. by rewrite insert_insert_eq.
Qed.

Lemma nextWagerId_update id f s : nextWagerId (update_wager id f s) = nextWagerId s.
Proof. reflexivity. Qed.

Ltac exec :=
  unfold mbind, M_bind, mret, M_ret, sload, sstore, emit, revert, msg_sender_,
    checked_add, safeTransferFrom, safeTransfer, external_call, recover; cbn.

Lemma attachEvidence_Done id root uri env st st' :
  attachEvidence id root uri env st = Done tt st' ->
  let w := wager_at (storage st) id in
  (msg_sender env = partyA w \/ msg_sender env = partyB w) /\
  st' = MkState
          (update_wager id (fun x => set_evidenceURI uri (set_evidenceRoot root x))
             (storage st))
          (journal st ++ [EvidenceAttached id root uri]).
Proof.
  unfold attachEvidence. exec.
  destruct (Z.eqb_spec (msg_sender env) (partyA (wager_at (storage st) id)));
    destruct (Z.eqb_spec (msg_sender env) (partyB (wager_at (storage st) id)));
    cbn; intros H; inversion H; rewrite update_wager_twice; auto.
Qed.

Lemma fundEscrow_Done id side env st st' :
  fundEscrow id side env st = Done tt st' ->
  let w := wager_at (storage st) id in
  partyA w <> 0 /\ resolved w = false /\ token_ok env = true /\
  match side with
  | Side.A =>
      msg_sender env = partyA w /\ fundedA w = false /\
      stakeA w + stakeARequired w <= MAX_UINT256 /\
      st' = MkState
              (update_wager id
                 (fun x => set_stakeA (stakeA w + stakeARequired w) (set_fundedA true x))
                 (storage st))
              (journal st ++
                 [TokenTransferFrom (token w) (msg_sender env) this (stakeARequired w)
                    (storage st);
                  EscrowFunded id (msg_sender env) (stakeARequired w)])
  | Side.B =>
      msg_sender env = partyB w /\ fundedB w = false /\
      stakeB w + stakeBRequired w <= MAX_UINT256 /\
      st' = MkState
              (update_wager id
                 (fun x => set_stakeB (stakeB w + stakeBRequired w) (set_fundedB true x))
                 (storage st))
              (journal st ++
                 [TokenTransferFrom (token w) (msg_sender env) this (stakeBRequired w)
                    (storage st);
                  EscrowFunded id (msg_sender env) (stakeBRequired w)])
  end.
Proof.
  unfold fundEscrow. exec.
  destruct (Z.eqb_spec (partyA (wager_at (storage st) id)) 0); [discriminate|].
  destruct (resolved (wager_at (storage st) id)) eqn:Hres; [discriminate|].
  destruct side.
  - destruct (Z.eqb_spec (msg_sender env) (partyA (wager_at (storage st) id)));
      [cbn | discriminate].
    destruct (fundedA (wager_at (storage st) id)) eqn:Hf; [discriminate|].
    destruct (token_ok env) eqn:Hok; [cbn | discriminate].
    destruct (Z.leb_spec (stakeA (wager_at (storage st) id) +
                          stakeARequired (wager_at (storage st) id)) MAX_UINT256);
      [cbn | discriminate].
    intros Hd; inversion Hd. rewrite update_wager_twice, <- app_assoc. auto 10.
  - destruct (Z.eqb_spec (msg_sender env) (partyB (wager_at (storage st) id)));
      [cbn | discriminate].
    destruct (fundedB (wager_at (storage st) id)) eqn:Hf; [discriminate|].
    destruct (token_ok env) eqn:Hok; [cbn | discriminate].
    destruct (Z.leb_spec (stakeB (wager_at (storage st) id) +
                          stakeBRequired (wager_at (storage st) id)) MAX_UINT256);
      [cbn | discriminate].
    intros Hd; inversion Hd. rewrite update_wager_twice, <- app_assoc. auto 10.
Qed.

Lemma _finalize_Done id win conf env st st' :
  _finalize id win conf env st = Done tt st' ->
  let w := wager_at (storage st) id in
  let s' := update_wager id (finalized win conf) (storage st) in
  resolved w = false /\ stakeA w + stakeB w <= MAX_UINT256 /\ token_ok env = true /\
  st' = MkState s'
          (journal st ++
             [Resolved id win conf;
              TokenTransfer (token w) win (stakeA w + stakeB w) s';
              Payout id win (stakeA w + stakeB w)]).
Proof.
  unfold _finalize. exec.
  destruct (resolved (wager_at (storage st) id)) eqn:Hres; [discriminate|].
  destruct (Z.leb_spec (stakeA (wager_at (storage st) id) +
                        stakeB (wager_at (storage st) id)) MAX_UINT256);
    [cbn | discriminate].
  destruct (token_ok env) eqn:Hok; [cbn | discriminate].
  intros Hd; inversion Hd. rewrite !update_wager_twice, <- !app_assoc. auto 10.
Qed.

Lemma _finalize_runs id win conf env st :
  let w := wager_at (storage st) id in
  let s' := update_wager id (finalized win conf) (storage st) in
  resolved w = false -> stakeA w + stakeB w <= MAX_UINT256 -> token_ok env = true ->
  _finalize id win conf env st =
  Done tt (MkState s'
             (journal st ++
                [Resolved id win conf;
                 TokenTransfer (token w) win (stakeA w + stakeB w) s';
                 Payout id win (stakeA w + stakeB w)])).
Proof.
  intros w s' Hres Hpot Hok. subst w s'. unfold _finalize. exec.
  rewrite Hres. destruct (Z.leb_spec (stakeA (wager_at (storage st) id) +
                        stakeB (wager_at (storage st) id)) MAX_UINT256); [cbn | lia].
  rewrite Hok. cbn. by rewrite !update_wager_twice, <- !app_assoc.
Qed.

Lemma submitReceipt_Done r signature env st st' :
  submitReceipt r signature env st = Done tt st' ->
  let id := Receipt.wagerId r in
  let w := wager_at (storage st) id in
  exists signer,
    partyA w <> 0 /\ fundedA w = true /\ fundedB w = true /\ resolved w = false /\
    ECDSA_recover (_hashReceiptTyped r) signature = Some signer /\
    signer ∈ isArbitrator (profile w) /\ (signer ∉ arbitratorHasVoted w) /\
    confidenceThresholdBps (profile w) <= Receipt.confidenceBps r /\
    (Receipt.winner r = partyA w \/ Receipt.winner r = partyB w) /\
    let forA := Receipt.winner r =? partyA w in
    (if forA then votesForA w else votesForB w) + 1 <= MAX_UINT256 /\
    let w1 := voted signer forA w w in
    let st1 := MkState (update_wager id (voted signer forA w) (storage st))
                 (journal st ++
                    [ReceiptAccepted id signer (Receipt.winner r)
                       (Receipt.confidenceBps r) (Receipt.traceURI r)]) in
    if votesForA w1 >=? m (profile w1) then
      _finalize id (partyA w1) (Receipt.confidenceBps r) env st1 = Done tt st'
    else if votesForB w1 >=? m (profile w1) then
      _finalize id (partyB w1) (Receipt.confidenceBps r) env st1 = Done tt st'
    else st' = st1.
Proof.
  unfold submitReceipt. exec.
  set (id := Receipt.wagerId r). set (w := wager_at (storage st) id).
  destruct (Z.eqb_spec (partyA w) 0); [discriminate|].
  destruct (fundedA w) eqn:HfA; [cbn | discriminate].
  destruct (fundedB w) eqn:HfB; [cbn | discriminate].
  destruct (resolved w) eqn:Hres; [discriminate|].
  destruct (ECDSA_recover (_hashReceiptTyped r) signature) as [signer|] eqn:Hrec;
    [cbn | discriminate].
  destruct (bool_decide_reflect (signer ∈ isArbitrator (profile w))); [cbn | discriminate].
  destruct (bool_decide_reflect (signer ∈ arbitratorHasVoted w)); [discriminate|].
  destruct (Z.ltb_spec (Receipt.confidenceBps r) (confidenceThresholdBps (profile w)));
    [discriminate|].
  intros Hd. exists signer.
  repeat (split; [first [assumption | reflexivity]|]).
  unfold voted.
  destruct (Z.eqb_spec (Receipt.winner r) (partyA w)) as [HwA|HwA]; cbn in Hd |- *.
  - split; [by left|].
    destruct (Z.leb_spec (votesForA w + 1) MAX_UINT256); [cbn in Hd | discriminate].
    split; [assumption|].
    rewrite !update_wager_twice, !wager_at_update_eq in Hd. cbn in Hd.
    change (wager_at (storage st) id) with w in Hd.
    repeat case_match; first [exact Hd | by inversion Hd].
  - destruct (Z.eqb_spec (Receipt.winner r) (partyB w)) as [HwB|HwB];
      [cbn in Hd | discriminate].
    split; [by right|].
    destruct (Z.leb_spec (votesForB w + 1) MAX_UINT256); [cbn in Hd | discriminate].
    split; [assumption|].
    rewrite !update_wager_twice, !wager_at_update_eq in Hd. cbn in Hd.
    change (wager_at (storage st) id) with w in Hd.
    repeat case_match; first [exact Hd | by inversion Hd].
Qed.

Lemma for_each_mark id arbs env s j f :
  for_each arbs (fun a => sstore id (mark_arbitrator a)) env
    (MkState (update_wager id f s) j) =
  Done tt (MkState
             (update_wager id
                (fun x => fold_left (fun acc a => mark_arbitrator a acc) arbs (f x)) s)
             j).
Proof.
  revert f. induction arbs as [|a arbs IH]; intros f; cbn.
  - reflexivity.
  - exec. rewrite update_wager_twice. apply (IH (fun x => mark_arbitrator a (f x))).
Qed.

Lemma fold_mark arbs w :
  fold_left (fun acc a => mark_arbitrator a acc) arbs w =
  set_profile
    (set_isArbitrator (list_to_set arbs ∪ isArbitrator (profile w)) (profile w)) w.
Proof.
  revert w. induction arbs as [|a arbs IH]; intros w; cbn.
  - destruct w as [? ? ? ? ? ? ? ? ? ? ? ? ? ? ? ? p ? ? ?]. destruct p.
    unfold set_profile, set_isArbitrator; cbn. do 2 f_equal.
    by rewrite (left_id_L ∅ (∪)).
  - rewrite IH. unfold mark_arbitrator, set_profile, set_isArbitrator; cbn.
    do 2 f_equal.
    by rewrite (assoc_L (∪)), (comm_L (∪) (list_to_set arbs) {[a]}).
Qed.

Lemma createWager_Done b t ra rb cl so thr m' arbs env st id st' :
  createWager b t ra rb cl so thr m' arbs env st = Done id st' ->
  let len := Z.of_nat (length arbs) in
  (b <> 0 /\ t <> 0 /\ ra <> 0 /\ rb <> 0) /\
  (thr <> 0 /\ thr <= 10000 /\ 1 <= len /\ m' <> 0 /\ m' <= len) /\
  id = nextWagerId (storage st) + 1 /\ id <= MAX_UINT256 /\
  st' = MkState
          (update_wager id
             (created_wager (msg_sender env) b t ra rb cl so thr m' arbs)
             (MkStorage id (_wagers (storage st))))
          (journal st ++
             [WagerCreated id (msg_sender env) b t ra rb thr m' (len mod 256)]).
Proof.
  unfold createWager.
  destruct (Z.eqb_spec b 0); [discriminate|].
  destruct (Z.eqb_spec t 0); [discriminate|].
  destruct (Z.eqb_spec ra 0); [discriminate|].
  destruct (Z.eqb_spec rb 0); [discriminate|].
  destruct (Z.eqb_spec thr 0); [discriminate|].
  destruct (Z.gtb_spec thr 10000); [discriminate|].
  destruct (Z.eqb_spec (Z.of_nat (length arbs)) 0); [discriminate|].
  destruct (Z.eqb_spec m' 0); [discriminate|].
  destruct (Z.gtb_spec m' (Z.of_nat (length arbs))); [discriminate|].
  cbn [orb]. unfold mbind at 1, M_bind at 1, pre_increment_nextWagerId.
  destruct (Z.leb_spec (nextWagerId (storage st) + 1) MAX_UINT256); [|discriminate].
  exec. rewrite !update_wager_twice.
  change (for_each arbs _) with
    (for_each arbs (fun a => sstore (nextWagerId (storage st) + 1) (mark_arbitrator a))).
  rewrite for_each_mark. cbn.
  rewrite wager_at_update_eq.
  intros Hd; inversion Hd; subst.
  split; [done|]. split; [lia|]. split; [done|]. split; [done|].
  unfold created_wager. by rewrite !fold_mark.
Qed.

(** ** The invariant of the wager state machine *)

Lemma finalize_count_app id j j' :
  finalize_count id (j ++ j') = (finalize_count id j + finalize_count id j')%nat.
Proof. unfold finalize_count. by rewrite List.filter_app, length_app. Qed.

Lemma in_range_spec hi x : in_range hi x = true <-> 0 <= x <= hi.
Proof. unfold in_range. rewrite andb_true_iff, !Z.leb_le. tauto. Qed.

Lemma wager_at_empty id : wager_at (MkStorage 0 ∅) id = zeroWager.
Proof. unfold wager_at; cbn. by rewrite lookup_total_empty. Qed.

Lemma invariant_genesis : invariant genesis.
Proof.
  split; [cbn; unfold MAX_UINT256; lia|].
  intros id. split.
  - unfold created; cbn; lia.
  - intros _. cbn. rewrite wager_at_empty. split; [|reflexivity].
    by constructor.
Qed.

Lemma created_or_fresh st id :
  invariant st -> partyA (wager_at (storage st) id) <> 0 ->
  sound (wager_at (storage st) id) (finalize_count id (journal st)).
Proof.
  intros [_ Hinv] Hp. destruct (Hinv id) as [Hc Hf].
  destruct (decide (created (storage st) id)) as [Hcr|Hcr]; [by apply Hc|].
  destruct (Hf Hcr) as [[Hz _ _ _ _ _ _] _]. contradiction.
Qed.

(** Writing one wager: the invariant is kept when the written wager stays
    sound (or fresh), the counter of wagers is unchanged and the new journal
    entries contain [k] resolutions of that wager and none of any other. *)
Lemma invariant_update st id f j' :
  invariant st ->
  (forall id', id' <> id -> finalize_count id' j' = 0%nat) ->
  (forall k, sound (wager_at (storage st) id) k ->
             sound (f (wager_at (storage st) id)) (k + finalize_count id j')) ->
  (fresh (wager_at (storage st) id) ->
   fresh (f (wager_at (storage st) id)) /\ finalize_count id j' = 0%nat) ->
  invariant (MkState (update_wager id f (storage st)) (journal st ++ j')).
Proof.
  intros [Hn Hinv] Hother Hs Hf. split; [exact Hn|].
  intros id0. cbn [storage journal]. rewrite finalize_count_app, wager_at_update.
  unfold created in *. rewrite nextWagerId_update.
  destruct (Hinv id0) as [Hc Hu]. case_decide as Hid.
  - subst id0. split.
    + intros Hcr. apply Hs. by apply Hc.
    + intros Hcr. destruct (Hu Hcr) as [Hfr Hk]. destruct (Hf Hfr) as [Hfr' Hk'].
      split; [exact Hfr'|]. lia.
  - rewrite (Hother id0) by congruence. rewrite Nat.add_0_r. by split.
Qed.

Lemma size_voters (signer : address) (V : gset address) :
  signer ∉ V -> Z.of_nat (size ({[signer]} ∪ V)) = Z.of_nat (size V) + 1.
Proof.
  intros Hnew. rewrite size_union by (by apply disjoint_singleton_l).
  rewrite size_singleton. lia.
Qed.

Lemma voters_subset (signer : address) (V P : gset address) :
  signer ∈ P -> V ⊆ P -> {[signer]} ∪ V ⊆ P.
Proof.
  intros Hin Hsub x Hx. apply elem_of_union in Hx as [Hx|Hx].
  - apply elem_of_singleton in Hx. by subst x.
  - by apply Hsub.
Qed.

(** An accepted receipt that leaves both counts below [m]. *)
Lemma sound_voted signer forA w k :
  sound w k -> resolved w = false -> fundedA w = true -> fundedB w = true ->
  signer ∈ isArbitrator (profile w) -> signer ∉ arbitratorHasVoted w ->
  ~ m (profile w) <= votesForA (voted signer forA w w) ->
  ~ m (profile w) <= votesForB (voted signer forA w w) ->
  sound (voted signer forA w w) k.
Proof.
  intros [] Hres HfA HfB Hin Hnew HA HB. pose proof (size_voters _ _ Hnew) as Hsz.
  pose proof (voters_subset _ _ _ Hin s_voters0) as Hsub.
  destruct forA; cbn in HA, HB; constructor; cbn; try assumption; try lia;
    try (rewrite Hres; split; [discriminate | tauto]); by intros.
Qed.

(** An accepted receipt that takes a count to [m], followed by [_finalize]. *)
Lemma sound_finalized signer forA w win conf k :
  sound w k -> resolved w = false -> fundedA w = true -> fundedB w = true ->
  signer ∈ isArbitrator (profile w) -> signer ∉ arbitratorHasVoted w ->
  m (profile w) <= votesForA (voted signer forA w w) \/
  m (profile w) <= votesForB (voted signer forA w w) ->
  win = partyA w \/ win = partyB w ->
  confidenceThresholdBps (profile w) <= conf <= MAX_UINT96 ->
  sound (finalized win conf (voted signer forA w w)) (k + 1).
Proof.
  intros [] Hres HfA HfB Hin Hnew Hm Hwin Hconf.
  pose proof (size_voters _ _ Hnew) as Hsz.
  pose proof (voters_subset _ _ _ Hin s_voters0) as Hsub.
  rewrite Hres in s_once0. subst k.
  destruct forA; cbn in Hm; constructor; cbn; try assumption; try lia;
    try tauto; try discriminate; auto.
Qed.

Lemma invariant_attachEvidence id root uri env st st' :
  invariant st -> attachEvidence id root uri env st = Done tt st' -> invariant st'.
Proof.
  intros Hinv Hrun. apply attachEvidence_Done in Hrun as [_ ->].
  apply invariant_update; [exact Hinv | reflexivity | |].
  - intros k []. rewrite Nat.add_0_r. by constructor.
  - intros []. split; [by constructor | reflexivity].
Qed.

Lemma invariant_fundEscrow id side env st st' :
  invariant st -> fundEscrow id side env st = Done tt st' -> invariant st'.
Proof.
  intros Hinv Hrun. apply fundEscrow_Done in Hrun as (Hp & Hres & _ & Hside).
  destruct side; destruct Hside as (_ & Hf & _ & ->);
    (apply invariant_update; [exact Hinv | reflexivity | |]).
  - intros k []. rewrite Nat.add_0_r. destruct (s_escrow0 Hres) as [HsA HsB].
    rewrite Hf in HsA. constructor; cbn; try assumption; try congruence.
    + intros _. split; [lia | exact HsB].
    + intros a Ha. destruct (s_voted0 a Ha). congruence.
  - intros []. contradiction.
  - intros k []. rewrite Nat.add_0_r. destruct (s_escrow0 Hres) as [HsA HsB].
    rewrite Hf in HsB. constructor; cbn; try assumption; try congruence.
    + intros _. split; [exact HsA | lia].
    + intros a Ha. destruct (s_voted0 a Ha). congruence.
  - intros []. contradiction.
Qed.

Lemma profile_voted signer forA w x : profile (voted signer forA w x) = profile x.
Proof. by destruct forA. Qed.

Lemma parties_voted signer forA w x :
  partyA (voted signer forA w x) = partyA x /\ partyB (voted signer forA w x) = partyB x.
Proof. by destruct forA. Qed.

Lemma wf_receipt_confidence r :
  wf_receipt r = true -> 0 <= Receipt.confidenceBps r <= MAX_UINT96.
Proof.
  unfold wf_receipt. rewrite !andb_true_iff, !in_range_spec. tauto.
Qed.

Lemma invariant_submitReceipt r signature env st st' :
  wf_receipt r = true ->
  invariant st -> submitReceipt r signature env st = Done tt st' -> invariant st'.
Proof.
  intros Hwf Hinv Hrun. apply wf_receipt_confidence in Hwf.
  apply submitReceipt_Done in Hrun
    as (signer & Hp & HfA & HfB & Hres & _ & Hin & Hnew & Hthr & Hwin & _ & Hrest).
  cbn zeta in Hrest. rewrite profile_voted in Hrest.
  destruct (parties_voted signer (Receipt.winner r =? partyA (wager_at (storage st)
              (Receipt.wagerId r))) (wager_at (storage st) (Receipt.wagerId r))
              (wager_at (storage st) (Receipt.wagerId r))) as [HpA HpB].
  rewrite HpA, HpB in Hrest. clear HpA HpB.
  set (id := Receipt.wagerId r) in *. set (w := wager_at (storage st) id) in *.
  set (forA := Receipt.winner r =? partyA w) in *.
  assert (Hnofresh : forall (P : Prop), fresh w -> P).
  { intros P []. contradiction. }
  destruct (Z.geb_spec (votesForA (voted signer forA w w)) (m (profile w))) as [HA|HA];
    [|destruct (Z.geb_spec (votesForB (voted signer forA w w)) (m (profile w)))
        as [HB|HB]].
  - apply _finalize_Done in Hrest as (_ & _ & _ & ->). cbn [storage journal].
    rewrite update_wager_twice, <- app_assoc. apply invariant_update; [exact Hinv| | |].
    + intros id' Hne. cbn. by rewrite (proj2 (Z.eqb_neq id id')).
    + intros k Hs. cbn. rewrite Z.eqb_refl. cbn. fold w in Hs |- *.
      apply sound_finalized; auto; lia.
    + apply Hnofresh.
  - apply _finalize_Done in Hrest as (_ & _ & _ & ->). cbn [storage journal].
    rewrite update_wager_twice, <- app_assoc. apply invariant_update; [exact Hinv| | |].
    + intros id' Hne. cbn. by rewrite (proj2 (Z.eqb_neq id id')).
    + intros k Hs. cbn. rewrite Z.eqb_refl. cbn. fold w in Hs |- *.
      apply sound_finalized; auto; lia.
    + apply Hnofresh.
  - subst st'. apply invariant_update; [exact Hinv | reflexivity | |].
    + intros k Hs. rewrite Nat.add_0_r. fold w in Hs |- *.
      apply sound_voted; auto; lia.
    + apply Hnofresh.
Qed.

Lemma created_wager_eq caller b t ra rb cl so thr m' arbs x :
  created_wager caller b t ra rb cl so thr m' arbs x =
  MkWager caller b t ra rb (stakeA x) (stakeB x) cl so (evidenceRoot x) (evidenceURI x)
    (fundedA x) (fundedB x) (resolved x) (winner x) (winningConfidenceBps x)
    (MkProfile thr m' (Z.of_nat (length arbs) mod 256) arbs
       (list_to_set arbs ∪ isArbitrator (profile x)))
    (arbitratorHasVoted x) (votesForA x) (votesForB x).
Proof. unfold created_wager. by rewrite fold_mark. Qed.

Lemma invariant_createWager b t ra rb cl so thr m' arbs env st id st' :
  wf_call (CreateWager b t ra rb cl so thr m' arbs) = true ->
  invariant st ->
  createWager b t ra rb cl so thr m' arbs env st = Done id st' -> invariant st'.
Proof.
  intros Hwf [Hn Hinv] Hrun. cbn in Hwf. rewrite !andb_true_iff, !in_range_spec in Hwf.
  destruct Hwf as ((((((Hb & Ht) & Hra) & Hrb) & Hthr) & Hm) & _).
  apply createWager_Done in Hrun
    as ((Hb0 & Ht0 & Hra0 & Hrb0) & (Hthr0 & Hthr1 & Hlen & Hm0 & Hm1) & Hid & Hmax & ->).
  split; [cbn; lia|]. intros id0. cbn [storage journal].
  rewrite finalize_count_app, Nat.add_0_r, wager_at_update. unfold created; cbn.
  destruct (Hinv id0) as [Hc Hu]. unfold created in Hc, Hu. case_decide as Hid0.
  - subst id0. split; [intros _ | lia].
    destruct Hu as [[] Hk]; [lia|]. rewrite created_wager_eq.
    change (wager_at {| nextWagerId := id; _wagers := _wagers (storage st) |} id)
      with (wager_at (storage st) id).
    destruct f_stakes0 as [HsA HsB], f_funded0 as [HfA HfB], f_votes0 as [HvA HvB].
    constructor; cbn;
      rewrite ?HsA, ?HsB, ?HfA, ?HfB, ?HvA, ?HvB, ?f_resolved0, ?f_panel0, ?f_voters0;
      rewrite ?(right_id_L ∅ (∪)), ?size_empty;
      try lia; try discriminate; try done;
      try (split; [discriminate | lia]).
  - change (wager_at {| nextWagerId := id; _wagers := _wagers (storage st) |} id0)
      with (wager_at (storage st) id0).
    split; [intros Hcr; apply Hc; lia | intros Hcr; apply Hu; lia].
Qed.

Lemma invariant_transact env c st :
  wf_call c = true -> invariant st -> invariant (fst (transact env c st)).
Proof.
  intros Hwf Hinv. unfold transact.
  destruct (run c env st) as [[] st'|e st'] eqn:Hrun; [cbn | exact Hinv].
  destruct c; cbn in Hrun.
  - unfold mbind, M_bind in Hrun.
    destruct (createWager _ _ _ _ _ _ _ _ _ env st) as [id st1|] eqn:Hcw;
      [|discriminate].
    cbn in Hrun. inversion Hrun; subst. eapply invariant_createWager; eauto.
  - eapply invariant_fundEscrow; eauto.
  - eapply invariant_attachEvidence; eauto.
  - eapply invariant_submitReceipt; eauto.
Qed.

Theorem reachable_invariant st : reachable st -> invariant st.
Proof.
  induction 1 as [|env c st Hreach IH Henv Hwf].
  - apply invariant_genesis.
  - by apply invariant_transact.
Qed.

(** ** What [submitReceipt] and [_finalize] do when their guards pass *)

Lemma _finalize_benign id win conf env st :
  resolved (wager_at (storage st) id) = false ->
  benign (_finalize id win conf env st).
Proof.
  intros Hres. unfold benign, _finalize. exec. rewrite Hres.
  destruct (_ <=? MAX_UINT256); cbn; [|eauto].
  destruct (token_ok env); cbn; eauto.
Qed.

Lemma submitReceipt_accepts r signature env st signer :
  let id := Receipt.wagerId r in
  let w := wager_at (storage st) id in
  let forA := Receipt.winner r =? partyA w in
  let st1 := MkState (update_wager id (voted signer forA w) (storage st))
               (journal st ++
                  [ReceiptAccepted id signer (Receipt.winner r)
                     (Receipt.confidenceBps r) (Receipt.traceURI r)]) in
  partyA w <> 0 -> fundedA w = true -> fundedB w = true -> resolved w = false ->
  ECDSA_recover (_hashReceiptTyped r) signature = Some signer ->
  signer ∈ isArbitrator (profile w) -> signer ∉ arbitratorHasVoted w ->
  confidenceThresholdBps (profile w) <= Receipt.confidenceBps r ->
  Receipt.winner r = partyA w \/ Receipt.winner r = partyB w ->
  submitReceipt r signature env st =
  if (if forA then votesForA w else votesForB w) + 1 <=? MAX_UINT256 then
    if votesForA (voted signer forA w w) >=? m (profile w) then
      _finalize id (partyA w) (Receipt.confidenceBps r) env st1
    else if votesForB (voted signer forA w w) >=? m (profile w) then
      _finalize id (partyB w) (Receipt.confidenceBps r) env st1
    else Done tt st1
  else
    Reverted Panic
      (MkState
         (update_wager id
            (set_arbitratorHasVoted ({[signer]} ∪ arbitratorHasVoted w)) (storage st))
         (journal st)).
Proof.
  intros id w forA st1 Hp HfA HfB Hres Hrec Hin Hnew Hthr Hwin.
  unfold submitReceipt. exec. fold id. fold w.
  destruct (Z.eqb_spec (partyA w) 0); [contradiction|].
  rewrite HfA, HfB, Hres, Hrec. cbn.
  rewrite (bool_decide_eq_true_2 _ Hin), (bool_decide_eq_false_2 _ Hnew). cbn.
  destruct (Z.ltb_spec (Receipt.confidenceBps r) (confidenceThresholdBps (profile w)));
    [lia|].
  subst st1 forA. unfold voted.
  destruct (Z.eqb_spec (Receipt.winner r) (partyA w)) as [HwA|HwA]; cbn.
  - destruct (_ <=? MAX_UINT256); cbn; [|reflexivity].
    rewrite !update_wager_twice, !wager_at_update_eq. cbn. fold w.
    repeat case_match; reflexivity.
  - destruct (Z.eqb_spec (Receipt.winner r) (partyB w)) as [HwB|HwB]; [cbn|tauto].
    destruct (_ <=? MAX_UINT256); cbn; [|reflexivity].
    rewrite !update_wager_twice, !wager_at_update_eq. cbn. fold w.
    repeat case_match; reflexivity.
Qed.

(** ** The guards of [submitReceipt] *)

Lemma submitReceipt_InvalidParams r signature env st :
  partyA (wager_at (storage st) (Receipt.wagerId r)) = 0 ->
  submitReceipt r signature env st = Reverted InvalidParams st.
Proof. intros Hp. unfold submitReceipt. exec. by rewrite Hp. Qed.

Lemma submitReceipt_NotFunded r signature env st :
  let w := wager_at (storage st) (Receipt.wagerId r) in
  partyA w <> 0 -> fundedA w = false \/ fundedB w = false ->
  submitReceipt r signature env st = Reverted NotFunded st.
Proof.
  intros w Hp Hf. unfold submitReceipt. exec. fold w.
  destruct (Z.eqb_spec (partyA w) 0); [contradiction|].
  destruct Hf as [-> | ->]; [reflexivity|]. by destruct (fundedA w).
Qed.

Lemma submitReceipt_AlreadyResolved r signature env st :
  let w := wager_at (storage st) (Receipt.wagerId r) in
  partyA w <> 0 -> fundedA w = true -> fundedB w = true -> resolved w = true ->
  submitReceipt r signature env st = Reverted AlreadyResolved st.
Proof.
  intros w Hp HfA HfB Hres. unfold submitReceipt. exec. fold w.
  destruct (Z.eqb_spec (partyA w) 0); [contradiction|].
  by rewrite HfA, HfB, Hres.
Qed.

(** The guards that depend on the recovered signer, once the wager is known to
    exist, to be funded on both sides and to be open. *)
Lemma submitReceipt_signer_guards r signature env st signer :
  let w := wager_at (storage st) (Receipt.wagerId r) in
  partyA w <> 0 -> fundedA w = true -> fundedB w = true -> resolved w = false ->
  ECDSA_recover (_hashReceiptTyped r) signature = Some signer ->
  submitReceipt r signature env st =
  if negb (bool_decide (signer ∈ isArbitrator (profile w))) then
    Reverted NotArbitrator st
  else if bool_decide (signer ∈ arbitratorHasVoted w) then
    Reverted DuplicateReceipt st
  else if Receipt.confidenceBps r <? confidenceThresholdBps (profile w) then
    Reverted ConfidenceTooLow st
  else if negb (Receipt.winner r =? partyA w) && negb (Receipt.winner r =? partyB w) then
    Reverted UnknownWinner st
  else submitReceipt r signature env st.
Proof.
  intros w Hp HfA HfB Hres Hrec.
  destruct (negb (bool_decide (signer ∈ isArbitrator (profile w)))) eqn:H1;
    [|destruct (bool_decide (signer ∈ arbitratorHasVoted w)) eqn:H2;
      [|destruct (Receipt.confidenceBps r <? confidenceThresholdBps (profile w)) eqn:H3;
        [|destruct (negb (Receipt.winner r =? partyA w) &&
                    negb (Receipt.winner r =? partyB w)) eqn:H4; [|reflexivity]]]];
    unfold submitReceipt; exec; fold w;
    (destruct (Z.eqb_spec (partyA w) 0); [contradiction|]);
    rewrite HfA, HfB, Hres, Hrec; cbn; rewrite H1; cbn; try reflexivity;
    rewrite H2; try reflexivity; rewrite H3; try reflexivity; by rewrite H4.
Qed.

(** C3. The preconditions of [submitReceipt] are checked in this order, and the
    first one that is violated decides the error: the wager exists
    ([InvalidParams]), both sides are funded ([NotFunded]), the wager is not
    resolved ([AlreadyResolved]), the recovered signer is in the arbitrator set
    ([NotArbitrator]), that signer has not voted yet ([DuplicateReceipt]), the
    confidence reaches the threshold ([ConfidenceTooLow]), the winner is one of
    the parties ([UnknownWinner]). Each of these reverts before anything is
    written, and a call that passes all of them fails with none of them. *)
Theorem submitReceipt_check_order r signature env st :
  let w := wager_at (storage st) (Receipt.wagerId r) in
  let out := submitReceipt r signature env st in
  (partyA w = 0 -> out = Reverted InvalidParams st) /\
  (partyA w <> 0 ->
   (fundedA w = false \/ fundedB w = false -> out = Reverted NotFunded st) /\
   (fundedA w = true -> fundedB w = true ->
    (resolved w = true -> out = Reverted AlreadyResolved st) /\
    (resolved w = false ->
     forall signer, ECDSA_recover (_hashReceiptTyped r) signature = Some signer ->
     (signer ∉ isArbitrator (profile w) -> out = Reverted NotArbitrator st) /\
     (signer ∈ isArbitrator (profile w) ->
      (signer ∈ arbitratorHasVoted w -> out = Reverted DuplicateReceipt st) /\
      (signer ∉ arbitratorHasVoted w ->
       (Receipt.confidenceBps r < confidenceThresholdBps (profile w) ->
        out = Reverted ConfidenceTooLow st) /\
       (confidenceThresholdBps (profile w) <= Receipt.confidenceBps r ->
        (Receipt.winner r <> partyA w /\ Receipt.winner r <> partyB w ->
         out = Reverted UnknownWinner st) /\
        (Receipt.winner r = partyA w \/ Receipt.winner r = partyB w ->
         benign out))))))).
Proof.
  intros w out. split; [apply submitReceipt_InvalidParams|].
  intros Hp. split; [by apply submitReceipt_NotFunded|].
  intros HfA HfB. split; [by apply submitReceipt_AlreadyResolved|].
  intros Hres signer Hrec.
  pose proof (submitReceipt_signer_guards r signature env st signer
                Hp HfA HfB Hres Hrec) as Hg.
  fold w in Hg. fold out in Hg.
  split.
  { intros Hin. by rewrite (bool_decide_eq_false_2 _ Hin) in Hg. }
  intros Hin. rewrite (bool_decide_eq_true_2 _ Hin) in Hg. cbn in Hg. split.
  { intros Hv. by rewrite (bool_decide_eq_true_2 _ Hv) in Hg. }
  intros Hv. rewrite (bool_decide_eq_false_2 _ Hv) in Hg. split.
  { intros Hlt. by rewrite (proj2 (Z.ltb_lt _ _) Hlt) in Hg. }
  intros Hge. rewrite (proj2 (Z.ltb_ge _ _) Hge) in Hg. split.
  { intros [HA HB]. apply Z.eqb_neq in HA, HB. by rewrite HA, HB in Hg. }
  intros Hwin. subst out.
  rewrite (submitReceipt_accepts r signature env st signer) by assumption.
  fold w. destruct (_ <=? MAX_UINT256); [|right; left; eauto].
  assert (Hopen : resolved (voted signer (Receipt.winner r =? partyA w) w w) = false).
  { by destruct (Receipt.winner r =? partyA w). }
  destruct (_ >=? _);
    [apply _finalize_benign; cbn; by rewrite wager_at_update_eq|].
  destruct (_ >=? _);
    [apply _finalize_benign; cbn; by rewrite wager_at_update_eq|].
  left. eauto.
Qed.

(** C6. On a wager that exists, is funded on both sides and is not resolved, a
    receipt whose signature recovers to an address outside the arbitrator set
    fails with [NotArbitrator], whatever the signature is a signature of. In a
    reachable state the set is the list of arbitrators given at creation. *)
Theorem submitReceipt_outsider r signature env st signer :
  let w := wager_at (storage st) (Receipt.wagerId r) in
  partyA w <> 0 -> fundedA w = true -> fundedB w = true -> resolved w = false ->
  ECDSA_recover (_hashReceiptTyped r) signature = Some signer ->
  (signer ∉ isArbitrator (profile w) ->
   submitReceipt r signature env st = Reverted NotArbitrator st) /\
  (reachable st -> ~ In signer (arbitrators (profile w)) ->
   submitReceipt r signature env st = Reverted NotArbitrator st /\
   transact env (SubmitReceipt r signature) st = (st, Some NotArbitrator)).
Proof.
  intros w Hp HfA HfB Hres Hrec.
  assert (Hout : signer ∉ isArbitrator (profile w) ->
                 submitReceipt r signature env st = Reverted NotArbitrator st).
  { intros Hin.
    rewrite (submitReceipt_signer_guards r signature env st signer) by assumption.
    fold w. by rewrite (bool_decide_eq_false_2 _ Hin). }
  split; [exact Hout|].
  intros Hreach Hnot. apply reachable_invariant in Hreach.
  destruct (created_or_fresh _ _ Hreach Hp). fold w in s_panel0.
  assert (Hin : signer ∉ isArbitrator (profile w)).
  { rewrite s_panel0, elem_of_list_to_set, list_elem_of_In. exact Hnot. }
  split; [by apply Hout|]. unfold transact. cbn [run]. by rewrite (Hout Hin).
Qed.

(** ** Evidence and funding *)

Lemma attachEvidence_NotParty id root uri env st :
  let w := wager_at (storage st) id in
  msg_sender env <> partyA w /\ msg_sender env <> partyB w ->
  attachEvidence id root uri env st = Reverted NotParty st.
Proof.
  intros w [HA HB]. unfold attachEvidence. exec. fold w.
  apply Z.eqb_neq in HA, HB. by rewrite HA, HB.
Qed.

(** C9. [attachEvidence] succeeds whenever the caller is [partyA] or [partyB]
    of the wager and fails with [NotParty] otherwise. Nothing else is required:
    not funding, not that the wager is open, so evidence can be attached after
    resolution. A successful call overwrites [evidenceRoot] and [evidenceURI]
    with its arguments and changes no other field, no other wager and not the
    wager counter. *)
Theorem attachEvidence_spec id root uri env st :
  let w := wager_at (storage st) id in
  let s' := update_wager id (fun x => set_evidenceURI uri (set_evidenceRoot root x))
              (storage st) in
  (msg_sender env = partyA w \/ msg_sender env = partyB w ->
   attachEvidence id root uri env st =
     Done tt (MkState s' (journal st ++ [EvidenceAttached id root uri])) /\
   wager_at s' id =
     MkWager (partyA w) (partyB w) (token w) (stakeARequired w) (stakeBRequired w)
       (stakeA w) (stakeB w) (claim w) (sources w) root uri (fundedA w) (fundedB w)
       (resolved w) (winner w) (winningConfidenceBps w) (profile w)
       (arbitratorHasVoted w) (votesForA w) (votesForB w) /\
   (forall id', id' <> id -> wager_at s' id' = wager_at (storage st) id') /\
   nextWagerId s' = nextWagerId (storage st)) /\
  (msg_sender env <> partyA w /\ msg_sender env <> partyB w ->
   attachEvidence id root uri env st = Reverted NotParty st).
Proof.
  intros w s'. split.
  - intros Hparty. split; [|split; [|split]].
    + unfold attachEvidence. exec. fold w.
      assert (Hc : negb (msg_sender env =? partyA w) &&
                   negb (msg_sender env =? partyB w) = false).
      { destruct Hparty as [-> | ->]; rewrite Z.eqb_refl; cbn;
          [reflexivity | apply andb_false_r]. }
      rewrite Hc. subst s'. by rewrite update_wager_twice.
    + subst s'. by rewrite wager_at_update_eq.
    + intros id' Hne. subst s'. rewrite wager_at_update_ne; [reflexivity | congruence].
    + reflexivity.
  - apply attachEvidence_NotParty.
Qed.

(** C10. [attachEvidence] does not check that the wager exists. Under an id
    for which no wager has been created both parties are the zero address, so
    a call by any other caller fails with [NotParty], and the state is left as
    it was. *)
Theorem attachEvidence_no_wager id root uri env st :
  reachable st -> ~ created (storage st) id -> msg_sender env <> 0 ->
  attachEvidence id root uri env st = Reverted NotParty st /\
  transact env (AttachEvidence id root uri) st = (st, Some NotParty).
Proof.
  intros Hreach Hnc Hcaller. apply reachable_invariant in Hreach as [_ Hinv].
  destruct (Hinv id) as [_ Hu]. destruct (Hu Hnc) as [[HpA HpB _ _ _ _ _ _] _].
  assert (Hrev : attachEvidence id root uri env st = Reverted NotParty st).
  { apply attachEvidence_NotParty. rewrite HpA, HpB. by split. }
  split; [exact Hrev|]. unfold transact. cbn [run]. by rewrite Hrev.
Qed.

(** C7, as the code has it. On an existing wager that is not resolved, a
    [fundEscrow] call by anyone but the party of the given side fails with
    [NotParty], and a call by that party when the side is already funded fails
    with [AlreadyFunded]. Once the wager is resolved every [fundEscrow] call
    fails with [AlreadyResolved], whoever calls it and whatever the flags are.
    Each of these reverts before anything is written. *)
Theorem fundEscrow_guards id side env st :
  let w := wager_at (storage st) id in
  let party := match side with Side.A => partyA w | Side.B => partyB w end in
  let funded := match side with Side.A => fundedA w | Side.B => fundedB w end in
  partyA w <> 0 ->
  (resolved w = true -> fundEscrow id side env st = Reverted AlreadyResolved st) /\
  (resolved w = false ->
   (msg_sender env <> party -> fundEscrow id side env st = Reverted NotParty st) /\
   (msg_sender env = party -> funded = true ->
    fundEscrow id side env st = Reverted AlreadyFunded st)).
Proof.
  intros w party funded Hp. unfold fundEscrow. exec. fold w.
  destruct (Z.eqb_spec (partyA w) 0); [contradiction|].
  split; [by intros -> |]. intros ->. subst party funded.
  destruct side; (split; [intros Hne | intros Heq Hf]).
  - apply Z.eqb_neq in Hne. by rewrite Hne.
  - by rewrite Heq, Z.eqb_refl, Hf.
  - apply Z.eqb_neq in Hne. by rewrite Hne.
  - by rewrite Heq, Z.eqb_refl, Hf.
Qed.

(** ** The effect of an accepted receipt *)

Lemma unchanged_by_vote signer forA w x :
  token (voted signer forA w x) = token x /\
  stakeA (voted signer forA w x) = stakeA x /\
  stakeB (voted signer forA w x) = stakeB x /\
  resolved (voted signer forA w x) = resolved x.
Proof. by destruct forA. Qed.

Lemma submitReceipt_effect r signature env st st' :
  submitReceipt r signature env st = Done tt st' ->
  let w := wager_at (storage st) (Receipt.wagerId r) in
  exists signer,
    (partyA w <> 0 /\ fundedA w = true /\ fundedB w = true /\ resolved w = false) /\
    ECDSA_recover (_hashReceiptTyped r) signature = Some signer /\
    (signer ∈ isArbitrator (profile w) /\ signer ∉ arbitratorHasVoted w) /\
    confidenceThresholdBps (profile w) <= Receipt.confidenceBps r /\
    (Receipt.winner r = partyA w \/ Receipt.winner r = partyB w) /\
    st' = after_receipt signer r st /\
    (quorum_winner (voted signer (Receipt.winner r =? partyA w) w w) <> None ->
     stakeA w + stakeB w <= MAX_UINT256 /\ token_ok env = true).
Proof.
  intros Hrun w. apply submitReceipt_Done in Hrun
    as (signer & Hp & HfA & HfB & Hres & Hrec & Hin & Hnew & Hthr & Hwin & _ & Hrest).
  cbn zeta in Hrest. fold w in Hrest.
  exists signer. do 5 (split; [auto|]).
  unfold after_receipt, quorum_winner, receipt_entry. fold w.
  set (forA := Receipt.winner r =? partyA w) in *.
  destruct (unchanged_by_vote signer forA w w) as (Htok & HsA & HsB & _).
  destruct (votesForA (voted signer forA w w) >=? m (profile (voted signer forA w w)));
    [|destruct (votesForB (voted signer forA w w) >=?
                m (profile (voted signer forA w w)))].
  - apply _finalize_Done in Hrest as (_ & Hpot & Hok & ->).
    cbn [storage journal] in *. rewrite wager_at_update_eq in *.
    change (wager_at (storage st) (Receipt.wagerId r)) with w in Hpot |- *.
    rewrite Htok, HsA, HsB in *. rewrite update_wager_twice, <- app_assoc. auto.
  - apply _finalize_Done in Hrest as (_ & Hpot & Hok & ->).
    cbn [storage journal] in *. rewrite wager_at_update_eq in *.
    change (wager_at (storage st) (Receipt.wagerId r)) with w in Hpot |- *.
    rewrite Htok, HsA, HsB in *. rewrite update_wager_twice, <- app_assoc. auto.
  - by subst st'.
Qed.

Lemma quorum_winner_spec w :
  match quorum_winner w with
  | None => votesForA w < m (profile w) /\ votesForB w < m (profile w)
  | Some win =>
      (m (profile w) <= votesForA w /\ win = partyA w) \/
      (votesForA w < m (profile w) /\ m (profile w) <= votesForB w /\ win = partyB w)
  end.
Proof.
  unfold quorum_winner.
  destruct (Z.geb_spec (votesForA w) (m (profile w)));
    [|destruct (Z.geb_spec (votesForB w) (m (profile w)))]; lia.
Qed.

Lemma after_receipt_wager signer r st :
  let id := Receipt.wagerId r in
  let w := wager_at (storage st) id in
  let w1 := voted signer (Receipt.winner r =? partyA w) w w in
  wager_at (storage (after_receipt signer r st)) id =
    match quorum_winner w1 with
    | None => w1
    | Some win => finalized win (Receipt.confidenceBps r) w1
    end /\
  finalize_count id (journal (after_receipt signer r st)) =
    (finalize_count id (journal st) +
     match quorum_winner w1 with None => 0 | Some _ => 1 end)%nat.
Proof.
  intros id w w1. unfold after_receipt. fold id w w1.
  destruct (quorum_winner w1); cbn [storage journal];
    rewrite wager_at_update_eq, finalize_count_app; (split; [reflexivity|]);
    f_equal; unfold finalize_count; cbn; by rewrite ?Z.eqb_refl.
Qed.

Lemma votes_voted signer forA w x :
  votesForA (voted signer forA w x) = (if forA then votesForA w + 1 else votesForA x) /\
  votesForB (voted signer forA w x) = (if forA then votesForB x else votesForB w + 1).
Proof. by destruct forA. Qed.

(** C1. In every reachable state a created wager is resolved if and only if
    one of its vote counts has reached [m], and [_finalize] has run for it at
    most once: once if it is resolved, never otherwise. The resolution happens
    in the call of [submitReceipt] that takes a count to [m]: before an
    accepted receipt both counts are below [m]; if the receipt takes the count
    of a side to [m], the same call sets [resolved], sets [winner] to that
    side's party and [winningConfidenceBps] to the confidence of this receipt;
    otherwise the wager stays unresolved. *)
Theorem resolution_iff_quorum st :
  reachable st ->
  (forall id, created (storage st) id ->
     let w := wager_at (storage st) id in
     (resolved w = true <->
      m (profile w) <= votesForA w \/ m (profile w) <= votesForB w) /\
     finalize_count id (journal st) = (if resolved w then 1 else 0)%nat /\
     (finalize_count id (journal st) <= 1)%nat) /\
  (forall r signature env st',
     submitReceipt r signature env st = Done tt st' ->
     let id := Receipt.wagerId r in
     let w := wager_at (storage st) id in
     let w' := wager_at (storage st') id in
     (resolved w = false /\ votesForA w < m (profile w) /\ votesForB w < m (profile w)) /\
     profile w' = profile w /\
     (m (profile w) <= votesForA w' ->
      resolved w' = true /\ winner w' = partyA w /\
      winningConfidenceBps w' = Receipt.confidenceBps r /\
      finalize_count id (journal st') = 1%nat) /\
     (m (profile w) <= votesForB w' ->
      resolved w' = true /\ winner w' = partyB w /\
      winningConfidenceBps w' = Receipt.confidenceBps r /\
      finalize_count id (journal st') = 1%nat) /\
     (votesForA w' < m (profile w) /\ votesForB w' < m (profile w) ->
      resolved w' = false /\ finalize_count id (journal st') = 0%nat)).
Proof.
  intros Hreach. apply reachable_invariant in Hreach as Hinv. split.
  - intros id Hcr w. destruct Hinv as [_ Hinv]. destruct (Hinv id) as [Hc _].
    destruct (Hc Hcr). fold w in s_resolved0, s_once0.
    split; [exact s_resolved0|]. split; [exact s_once0|].
    rewrite s_once0. destruct (resolved w); lia.
  - intros r signature env st' Hrun id w w'.
    apply submitReceipt_effect in Hrun
      as (signer & (Hp & _ & _ & Hres) & _ & _ & _ & Hwin & Hst' & _).
    fold id w in Hp, Hres, Hwin, Hst'.
    destruct (created_or_fresh _ _ Hinv Hp). fold id w in s_resolved0, s_once0.
    rewrite Hres in s_once0.
    assert (Hbelow : votesForA w < m (profile w) /\ votesForB w < m (profile w)).
    { destruct (Z.lt_ge_cases (votesForA w) (m (profile w)));
        destruct (Z.lt_ge_cases (votesForB w) (m (profile w))); try lia;
        (assert (resolved w = true) by (apply s_resolved0; lia); congruence). }
    split; [tauto|].
    destruct (after_receipt_wager signer r st) as [Hw' Hcount].
    fold id w in Hw', Hcount. subst w'. rewrite Hst', Hw', Hcount, <- s_once0.
    set (w1 := voted signer (Receipt.winner r =? partyA w) w w) in *.
    pose proof (quorum_winner_spec w1) as Hq.
    destruct (votes_voted signer (Receipt.winner r =? partyA w) w w) as [HvA HvB].
    destruct (parties_voted signer (Receipt.winner r =? partyA w) w w) as [HpA HpB].
    fold w1 in HvA, HvB, HpA, HpB.
    assert (Hprof : profile w1 = profile w) by apply profile_voted.
    rewrite Hprof in Hq.
    destruct (quorum_winner w1) as [win|]; cbn.
    + rewrite Hprof. split; [reflexivity|].
      rewrite HpA, HpB in Hq. clearbody w1.
      destruct (Receipt.winner r =? partyA w);
        repeat split; intros; destruct Hq as [[? ->]|(? & ? & ->)];
        try reflexivity; lia.
    + rewrite Hprof. split; [reflexivity|].
      destruct (unchanged_by_vote signer (Receipt.winner r =? partyA w) w w)
        as (_ & _ & _ & Hopen). fold w1 in Hopen. rewrite Hopen.
      repeat split; intros; first [lia | assumption].
Qed.

(** ** Payout *)

(** C2. When [_finalize] completes, the amount transferred to the winner is
    [stakeA + stakeB] as held when it was entered (the sum does not wrap), both
    balances are zero afterwards, and the token was called on a storage in
    which they were zero already and the wager was marked resolved: the
    storage that [_finalize] leaves. It completes whenever the wager is not
    resolved, the sum fits [uint256] and the token accepts the transfer. In a
    reachable state each funded side holds exactly its required stake, so a
    receipt that resolves the wager pays [stakeARequired + stakeBRequired]. *)
Theorem finalize_pays_the_pot st :
  (forall id win conf env st',
     _finalize id win conf env st = Done tt st' ->
     let w := wager_at (storage st) id in
     let w' := wager_at (storage st') id in
     let pot := stakeA w + stakeB w in
     journal st' =
       journal st ++
         [Resolved id win conf;
          TokenTransfer (token w) win pot (storage st');
          Payout id win pot] /\
     pot <= MAX_UINT256 /\
     stakeA w' = 0 /\ stakeB w' = 0 /\ resolved w' = true) /\
  (forall id win conf env,
     let w := wager_at (storage st) id in
     resolved w = false -> stakeA w + stakeB w <= MAX_UINT256 -> token_ok env = true ->
     exists st', _finalize id win conf env st = Done tt st') /\
  (reachable st ->
   forall r signature env st',
     submitReceipt r signature env st = Done tt st' ->
     let id := Receipt.wagerId r in
     let w := wager_at (storage st) id in
     let w' := wager_at (storage st') id in
     let pot := stakeARequired w + stakeBRequired w in
     resolved w' = true ->
     exists signer,
       journal st' =
         journal st ++
           [receipt_entry signer r;
            Resolved id (winner w') (Receipt.confidenceBps r);
            TokenTransfer (token w) (winner w') pot (storage st');
            Payout id (winner w') pot] /\
       stakeA w = stakeARequired w /\ stakeB w = stakeBRequired w /\
       stakeA w' = 0 /\ stakeB w' = 0).
Proof.
  split; [|split].
  - intros id win conf env st' Hrun w w' pot.
    apply _finalize_Done in Hrun as (_ & Hpot & _ & ->).
    subst w'. cbn [storage journal]. rewrite wager_at_update_eq. by cbn.
  - intros id win conf env w Hres Hpot Hok. eexists.
    by apply _finalize_runs.
  - intros Hreach r signature env st' Hrun id w w' pot Hres'.
    apply reachable_invariant in Hreach as Hinv.
    apply submitReceipt_effect in Hrun
      as (signer & (Hp & HfA & HfB & Hres) & _ & _ & _ & _ & Hst' & _).
    fold id w in Hp, HfA, HfB, Hres, Hst'.
    destruct (created_or_fresh _ _ Hinv Hp). fold id w in s_escrow0.
    destruct (s_escrow0 Hres) as [HsA HsB]. rewrite HfA in HsA. rewrite HfB in HsB.
    exists signer. subst w' pot.
    destruct (after_receipt_wager signer r st) as [Hw' _]. fold id w in Hw'.
    rewrite Hst' in Hres' |- *. rewrite Hw' in Hres' |- *. clear Hw'.
    unfold after_receipt. fold id w.
    destruct (unchanged_by_vote signer (Receipt.winner r =? partyA w) w w)
      as (_ & _ & _ & Hopen).
    destruct (quorum_winner _) as [win|]; [|congruence].
    cbn [journal storage]. rewrite HsA, HsB. by cbn.
Qed.

(** What the contract does guarantee about confidences. The only bound that
    [submitReceipt] puts on the confidence of a receipt is the threshold of the
    wager from below; from above there is the range of [uint96] alone. So every
    accepted receipt has
    [confidenceThresholdBps <= confidenceBps <= 2^96 - 1], and in every
    reachable state the [winningConfidenceBps] of a resolved wager lies in the
    same range, the threshold itself being between 1 and 10000. *)
Lemma accepted_confidence_range st :
  (forall r signature env st',
     wf_receipt r = true ->
     submitReceipt r signature env st = Done tt st' ->
     let w := wager_at (storage st) (Receipt.wagerId r) in
     confidenceThresholdBps (profile w) <= Receipt.confidenceBps r <= MAX_UINT96) /\
  (reachable st ->
   forall id,
     let w := wager_at (storage st) id in
     resolved w = true ->
     1 <= confidenceThresholdBps (profile w) <= 10000 /\
     confidenceThresholdBps (profile w) <= winningConfidenceBps w <= MAX_UINT96).
Proof.
  split.
  - intros r signature env st' Hwf Hrun w.
    apply wf_receipt_confidence in Hwf.
    apply submitReceipt_effect in Hrun as (signer & _ & _ & _ & Hthr & _).
    fold w in Hthr. lia.
  - intros Hreach id w Hres. apply reachable_invariant in Hreach as [_ Hinv].
    destruct (Hinv id) as [Hc Hu].
    destruct (decide (created (storage st) id)) as [Hcr|Hcr].
    + destruct (Hc Hcr). fold w in s_thr0, s_final0. split; [exact s_thr0|].
      by apply s_final0.
    + destruct (Hu Hcr) as [[] _]. fold w in f_resolved0. congruence.
Qed.

(** ** Rejected receipts *)

Lemma submitReceipt_rejection r signature env st :
  match rejection r signature st with
  | Some e => submitReceipt r signature env st = Reverted e st
  | None => benign (submitReceipt r signature env st)
  end.
Proof.
  unfold rejection. set (w := wager_at (storage st) (Receipt.wagerId r)).
  destruct (Z.eqb_spec (partyA w) 0) as [Hp|Hp];
    [by apply submitReceipt_InvalidParams|].
  destruct (fundedA w) eqn:HfA; cbn [negb orb];
    [|apply submitReceipt_NotFunded; auto].
  destruct (fundedB w) eqn:HfB; cbn [negb orb];
    [|apply submitReceipt_NotFunded; auto].
  destruct (resolved w) eqn:Hres; [by apply submitReceipt_AlreadyResolved|].
  destruct (ECDSA_recover (_hashReceiptTyped r) signature) as [signer|] eqn:Hrec.
  - pose proof (submitReceipt_signer_guards r signature env st signer
                  Hp HfA HfB Hres Hrec) as Hg. fold w in Hg.
    destruct (bool_decide_reflect (signer ∈ isArbitrator (profile w))) as [Hin|Hin];
      cbn [negb] in *; [|exact Hg].
    destruct (bool_decide_reflect (signer ∈ arbitratorHasVoted w)) as [Hv|Hv];
      [exact Hg|].
    destruct (Z.ltb_spec (Receipt.confidenceBps r) (confidenceThresholdBps (profile w)));
      [exact Hg|].
    destruct (Z.eqb_spec (Receipt.winner r) (partyA w)) as [HA|HA];
      [|destruct (Z.eqb_spec (Receipt.winner r) (partyB w)) as [HB|HB]];
      cbn [negb andb] in *; [| |exact Hg].
    all: rewrite (submitReceipt_accepts r signature env st signer) by (auto; lia).
    all: fold w.
    all: destruct (_ <=? MAX_UINT256); [|right; left; eauto].
    all: assert (Hopen : resolved (voted signer (Receipt.winner r =? partyA w) w w) = false)
           by (by destruct (Receipt.winner r =? partyA w)).
    all: destruct (_ >=? _);
           [apply _finalize_benign; cbn; by rewrite wager_at_update_eq|].
    all: destruct (_ >=? _);
           [apply _finalize_benign; cbn; by rewrite wager_at_update_eq|].
    all: left; eauto.
  - unfold submitReceipt. exec. fold w.
    destruct (Z.eqb_spec (partyA w) 0); [contradiction|].
    by rewrite HfA, HfB, Hres, Hrec.
Qed.

Lemma size_list_to_set_le (l : list address) :
  (size (list_to_set l : gset address) <= length l)%nat.
Proof.
  induction l as [|a l IH]; cbn.
  - by rewrite size_empty.
  - rewrite size_union_alt, size_singleton.
    pose proof (subseteq_size (list_to_set l ∖ {[a]}) (list_to_set l : gset address)
                  (subseteq_difference_l _ _ _ (reflexivity _))).
    lia.
Qed.

(** C4, as the code has it. In every reachable state the votes counted for a
    wager are as many as the arbitrators marked as having voted, all of whom
    are on the panel, so there are at most as many votes as arbitrators listed
    at creation (and at most [n] where the list has at most 255 entries). An
    accepted receipt marks a signer that was not marked and adds one vote. A
    receipt whose signer is already marked is rejected without any change:
    with [DuplicateReceipt] while the wager is open and with [AlreadyResolved]
    once it is resolved. *)
Theorem one_vote_per_arbitrator st :
  reachable st ->
  (forall id,
     let w := wager_at (storage st) id in
     votesForA w + votesForB w = Z.of_nat (size (arbitratorHasVoted w)) /\
     (forall a, a ∈ arbitratorHasVoted w -> In a (arbitrators (profile w))) /\
     votesForA w + votesForB w <= Z.of_nat (length (arbitrators (profile w))) /\
     (created (storage st) id ->
      Z.of_nat (length (arbitrators (profile w))) <= MAX_UINT8 ->
      votesForA w + votesForB w <= n (profile w))) /\
  (forall r signature env signer,
     let w := wager_at (storage st) (Receipt.wagerId r) in
     let e := if resolved w then AlreadyResolved else DuplicateReceipt in
     ECDSA_recover (_hashReceiptTyped r) signature = Some signer ->
     signer ∈ arbitratorHasVoted w ->
     submitReceipt r signature env st = Reverted e st /\
     transact env (SubmitReceipt r signature) st = (st, Some e)) /\
  (forall r signature env st',
     submitReceipt r signature env st = Done tt st' ->
     let w := wager_at (storage st) (Receipt.wagerId r) in
     let w' := wager_at (storage st') (Receipt.wagerId r) in
     exists signer,
       ECDSA_recover (_hashReceiptTyped r) signature = Some signer /\
       (signer ∉ arbitratorHasVoted w) /\
       arbitratorHasVoted w' = {[signer]} ∪ arbitratorHasVoted w /\
       votesForA w' + votesForB w' = votesForA w + votesForB w + 1).
Proof.
  intros Hreach. apply reachable_invariant in Hreach as Hinv.
  assert (Hvoters : forall id a,
            a ∈ arbitratorHasVoted (wager_at (storage st) id) ->
            sound (wager_at (storage st) id) (finalize_count id (journal st))).
  { intros id a Ha. destruct Hinv as [_ Hall]. destruct (Hall id) as [Hc Hu].
    destruct (decide (created (storage st) id)) as [Hcr|Hcr]; [by apply Hc|].
    destruct (Hu Hcr) as [[] _]. rewrite f_voters0 in Ha.
    by apply not_elem_of_empty in Ha. }
  split; [|split].
  - intros id w. destruct Hinv as [_ Hall]. destruct (Hall id) as [Hc Hu].
    destruct (decide (created (storage st) id)) as [Hcr|Hcr].
    + destruct (Hc Hcr). fold w in s_tally0, s_voters0, s_panel0, s_n0.
      assert (Hle : votesForA w + votesForB w <=
                    Z.of_nat (length (arbitrators (profile w)))).
      { rewrite s_tally0. apply Nat2Z.inj_le.
        etrans; [apply subseteq_size, s_voters0|].
        rewrite s_panel0. apply size_list_to_set_le. }
      split; [exact s_tally0|]. split; [|split; [exact Hle|]].
      * intros a Ha. apply s_voters0 in Ha.
        rewrite s_panel0, elem_of_list_to_set, list_elem_of_In in Ha. exact Ha.
      * intros _ Hlen. rewrite s_n0, Z.mod_small; [exact Hle|].
        unfold MAX_UINT8 in Hlen. lia.
    + destruct (Hu Hcr) as [[] _]. fold w in f_votes0, f_voters0.
      destruct f_votes0 as [-> ->]. rewrite f_voters0, size_empty.
      split; [reflexivity|]. split; [|split; [lia | contradiction]].
      intros a Ha. by apply not_elem_of_empty in Ha.
  - intros r signature env signer w e Hrec Hv.
    destruct (Hvoters _ _ Hv). fold w in s_voters0, s_voted0, s_funded0.
    destruct (s_voted0 _ Hv) as [HfA HfB].
    assert (Hrev : submitReceipt r signature env st = Reverted e st).
    { pose proof (submitReceipt_rejection r signature env st) as Hrej.
      unfold rejection in Hrej. fold w in Hrej.
      destruct (Z.eqb_spec (partyA w) 0) as [Hp|Hp]; [by apply s_funded0 in Hp; auto|].
      rewrite HfA, HfB in Hrej. cbn [negb orb] in Hrej. subst e.
      destruct (resolved w); [exact Hrej|]. rewrite Hrec in Hrej.
      rewrite (bool_decide_eq_true_2 _ (s_voters0 _ Hv)) in Hrej.
      by rewrite (bool_decide_eq_true_2 _ Hv) in Hrej. }
    split; [exact Hrev|]. unfold transact. cbn [run]. by rewrite Hrev.
  - intros r signature env st' Hrun w w'.
    apply submitReceipt_effect in Hrun
      as (signer & _ & Hrec & (_ & Hnew) & _ & _ & Hst' & _).
    fold w in Hnew. exists signer. split; [exact Hrec|]. split; [exact Hnew|].
    destruct (after_receipt_wager signer r st) as [Hw' _]. fold w in Hw'.
    subst w'. rewrite Hst', Hw'.
    destruct (quorum_winner _); destruct (Receipt.winner r =? partyA w); cbn;
      (split; [reflexivity | lia]).
Qed.

(** C5. A [submitReceipt] that fails leaves the state exactly as it was: the
    transaction commits nothing, and every failure but an arithmetic panic or
    a refused payout is raised before the function has written anything. In
    particular a receipt rejected with [ConfidenceTooLow] does not mark its
    signer as having voted and changes no count, and a later receipt of the
    same signer for the same wager that reaches the threshold and names one of
    the parties is accepted: the signer is marked then and the named side
    gains one vote. *)
Theorem failed_receipt_changes_nothing r signature env st :
  let after := transact env (SubmitReceipt r signature) st in
  let w := wager_at (storage st) (Receipt.wagerId r) in
  (forall e, snd after = Some e -> fst after = st) /\
  (forall e st_at,
     submitReceipt r signature env st = Reverted e st_at ->
     e <> Panic -> e <> SafeERC20FailedOperation -> st_at = st) /\
  (forall signer,
     ECDSA_recover (_hashReceiptTyped r) signature = Some signer ->
     snd after = Some ConfidenceTooLow ->
     (signer ∉ arbitratorHasVoted (wager_at (storage (fst after)) (Receipt.wagerId r))) /\
     forall r2 signature2 env2,
       Receipt.wagerId r2 = Receipt.wagerId r ->
       ECDSA_recover (_hashReceiptTyped r2) signature2 = Some signer ->
       confidenceThresholdBps (profile w) <= Receipt.confidenceBps r2 ->
       Receipt.winner r2 = partyA w \/ Receipt.winner r2 = partyB w ->
       votesForA w < MAX_UINT256 -> votesForB w < MAX_UINT256 ->
       stakeA w + stakeB w <= MAX_UINT256 -> token_ok env2 = true ->
       exists st2,
         transact env2 (SubmitReceipt r2 signature2) (fst after) = (st2, None) /\
         let w2 := wager_at (storage st2) (Receipt.wagerId r) in
         signer ∈ arbitratorHasVoted w2 /\
         votesForA w2 = votesForA w + (if Receipt.winner r2 =? partyA w then 1 else 0) /\
         votesForB w2 = votesForB w + (if Receipt.winner r2 =? partyA w then 0 else 1)).
Proof.
  intros after w. subst after. unfold transact. cbn [run].
  pose proof (submitReceipt_rejection r signature env st) as Hrej.
  split; [|split].
  - intros e. by destruct (submitReceipt r signature env st).
  - intros e st_at Hrun Hpanic Hsafe.
    destruct (rejection r signature st); [congruence|].
    destruct Hrej as [(x & st' & Hd)|[(st' & Hd)|(st' & Hd)]]; congruence.
  - intros signer Hrec Herr.
    destruct (submitReceipt r signature env st) as [|e st_at] eqn:Hrun;
      [discriminate|].
    cbn in Herr. injection Herr as ->. cbn [fst].
    assert (Hguards : rejection r signature st = Some ConfidenceTooLow).
    { destruct (rejection r signature st); [congruence|].
      destruct Hrej as [(x & st' & Hd)|[(st' & Hd)|(st' & Hd)]]; congruence. }
    clear Hrej. unfold rejection in Hguards. fold w in Hguards.
    destruct (Z.eqb_spec (partyA w) 0) as [Hp|Hp]; [discriminate|].
    destruct (fundedA w) eqn:HfA; [|discriminate].
    destruct (fundedB w) eqn:HfB; [|discriminate]. cbn [negb orb] in Hguards.
    destruct (resolved w) eqn:Hres; [discriminate|]. rewrite Hrec in Hguards.
    destruct (bool_decide_reflect (signer ∈ isArbitrator (profile w))) as [Hin|Hin];
      [|discriminate].
    destruct (bool_decide_reflect (signer ∈ arbitratorHasVoted w)) as [Hv|Hv];
      [discriminate|].
    split; [exact Hv|].
    intros r2 signature2 env2 Hid Hrec2 Hthr Hwin HmaxA HmaxB Hpot Hok.
    pose proof (submitReceipt_accepts r2 signature2 env2 st signer) as Hacc.
    cbn zeta in Hacc. rewrite Hid in Hacc. fold w in Hacc.
    specialize (Hacc Hp HfA HfB Hres Hrec2 Hin Hv Hthr Hwin).
    set (forA := Receipt.winner r2 =? partyA w) in *.
    set (w1 := voted signer forA w w) in *.
    destruct (unchanged_by_vote signer forA w w) as (Htok & HsA & HsB & Hopen).
    destruct (votes_voted signer forA w w) as [HvA HvB].
    fold w1 in Htok, HsA, HsB, Hopen, HvA, HvB.
    assert (Hmarked : signer ∈ arbitratorHasVoted w1).
    { subst w1. destruct forA; cbn; apply elem_of_union_l; by apply elem_of_singleton. }
    assert (Hfits : ((if forA then votesForA w else votesForB w) + 1 <=? MAX_UINT256) = true).
    { apply Z.leb_le. destruct forA; lia. }
    rewrite Hfits in Hacc. rewrite Hacc. clear Hacc.
    assert (Hfin : forall win,
              exists st2,
                _finalize (Receipt.wagerId r) win (Receipt.confidenceBps r2) env2
                  (MkState (update_wager (Receipt.wagerId r) (voted signer forA w)
                              (storage st))
                     (journal st ++
                        [ReceiptAccepted (Receipt.wagerId r) signer (Receipt.winner r2)
                           (Receipt.confidenceBps r2) (Receipt.traceURI r2)])) =
                Done tt st2 /\
                wager_at (storage st2) (Receipt.wagerId r) =
                finalized win (Receipt.confidenceBps r2) w1).
    { intros win. eexists. split.
      - apply _finalize_runs; cbn [storage]; rewrite ?wager_at_update_eq;
          change (wager_at (storage st) (Receipt.wagerId r)) with w; fold w1;
          [by rewrite Hopen | lia | exact Hok].
      - cbn [storage]. by rewrite !wager_at_update_eq. }
    destruct (_ >=? _);
      [destruct (Hfin (partyA w)) as (st2 & -> & Hw2)
      |destruct (_ >=? _);
         [destruct (Hfin (partyB w)) as (st2 & -> & Hw2)|]];
      eexists; (split; [reflexivity|]); cbn zeta;
      rewrite ?Hw2; cbn [storage]; rewrite ?wager_at_update_eq;
      change (wager_at (storage st) (Receipt.wagerId r)) with w; fold w1; cbn;
      rewrite HvA, HvB; (split; [exact Hmarked|]); destruct forA; lia.
Qed.

(** * More of the contract *)

(** ** Transactions as commits *)

Lemma run_commits env c st st' : run c env st = Done tt st' -> commits st st'.
Proof.
  destruct c; cbn [run].
  - unfold mbind, M_bind.
    destruct (createWager _ _ _ _ _ _ _ _ _ env st) as [id st1|] eqn:Hcw; [|discriminate].
    cbn. intros Hd; inversion Hd; subst st1.
    apply createWager_Done in Hcw as (Hnz & Hprof & -> & Hmax & ->).
    by apply commits_createWager.
  - intros Hrun. apply fundEscrow_Done in Hrun as (Hp & Hres & _ & Hside).
    destruct side; destruct Hside as (Hcaller & Hf & Hfit & ->); rewrite Hcaller.
    + by apply (commits_fundEscrow st id Side.A).
    + by apply (commits_fundEscrow st id Side.B).
  - intros Hrun. apply attachEvidence_Done in Hrun as [Hparty ->].
    by apply (commits_attachEvidence st id root uri (msg_sender env)).
  - intros Hrun. apply submitReceipt_effect in Hrun
      as (signer & Hopen & _ & Hpanel & Hthr & Hwin & -> & Hpot).
    apply commits_submitReceipt; auto. intros Hq. by apply Hpot.
Qed.

Lemma transact_cases env c st :
  (snd (transact env c st) = None /\ commits st (fst (transact env c st))) \/
  ((exists e, snd (transact env c st) = Some e) /\ fst (transact env c st) = st).
Proof.
  unfold transact. destruct (run c env st) as [[] st'|e st'] eqn:Hrun; cbn.
  - left. split; [reflexivity|]. by apply run_commits in Hrun.
  - right. eauto.
Qed.

(** Induction over the reachable states along the transactions that commit. *)
Lemma reachable_commits_ind (Q : State -> Prop) :
  Q genesis ->
  (forall st st', reachable st -> reachable st' -> Q st -> commits st st' -> Q st') ->
  forall st, reachable st -> Q st.
Proof.
  intros Hgen Hstep st Hreach.
  induction Hreach as [|env c st Hreach IH Henv Hwf]; [exact Hgen|].
  pose proof (reachable_transact env c st Hreach Henv Hwf) as Hreach'.
  destruct (transact_cases env c st) as [[_ Hc]|[_ Heq]].
  - by apply (Hstep st).
  - by rewrite Heq.
Qed.

(** ** Counting in the journal *)

Lemma count_entries_app p j j' :
  count_entries p (j ++ j') = count_entries p j + count_entries p j'.
Proof. unfold count_entries. rewrite List.filter_app, length_app. lia. Qed.

Lemma total_app f j j' : total f (j ++ j') = total f j + total f j'.
Proof. unfold total. induction j as [|e j IH]; cbn; [reflexivity|]. rewrite IH. lia. Qed.

Lemma blank_fields w :
  blank w ->
  (partyA w = 0 /\ partyB w = 0 /\ token w = 0) /\
  (stakeARequired w = 0 /\ stakeBRequired w = 0 /\ stakeA w = 0 /\ stakeB w = 0) /\
  (claim w = EmptyString /\ sources w = EmptyString) /\
  (fundedA w = false /\ fundedB w = false /\ resolved w = false) /\
  (winner w = 0 /\ winningConfidenceBps w = 0) /\
  profile w = zeroProfile /\
  arbitratorHasVoted w = ∅ /\ (votesForA w = 0 /\ votesForB w = 0).
Proof.
  intros H. unfold blank in H.
  pose proof (f_equal partyA H). pose proof (f_equal partyB H).
  pose proof (f_equal token H). pose proof (f_equal stakeARequired H).
  pose proof (f_equal stakeBRequired H). pose proof (f_equal stakeA H).
  pose proof (f_equal stakeB H). pose proof (f_equal claim H).
  pose proof (f_equal sources H). pose proof (f_equal fundedA H).
  pose proof (f_equal fundedB H). pose proof (f_equal resolved H).
  pose proof (f_equal winner H). pose proof (f_equal winningConfidenceBps H).
  pose proof (f_equal profile H). pose proof (f_equal arbitratorHasVoted H).
  pose proof (f_equal votesForA H). pose proof (f_equal votesForB H).
  cbn in *. repeat split; assumption.
Qed.

(** ** The second part of the invariant *)

Ltac open_sound H :=
  destruct H as [Sm Sm8 Sn Sthr Sreq Spanel Svoters Stally Svotes Sresolved Sescrow
                 Sfinal Sfunded Svoted Sonce].

Ltac open_fresh H :=
  destruct H as [FpartyA FpartyB Fstakes Ffunded Fresolved Fpanel Fvoters Fvotes].

Ltac open_settled H :=
  destruct H as [Tcap Twinner Tpot Tfunded Taccepted Tresolved Tpayout].

Lemma settled_quiet w j j' id : settled w j id -> quiet id j' -> settled w (j ++ j') id.
Proof.
  intros Hs (Hf & Ha & Hr & Hp). open_settled Hs.
  constructor; rewrite ?count_entries_app, ?Hf, ?Ha, ?Hr, ?Hp, ?Z.add_0_r; assumption.
Qed.

Lemma count_entries_cons p e j :
  count_entries p (e :: j) = b2z (p e) + count_entries p j.
Proof. unfold count_entries; cbn. destruct (p e); cbn [length b2z]; lia. Qed.

Lemma count_entries_nil p : count_entries p [] = 0.
Proof. reflexivity. Qed.

Ltac count_new :=
  unfold receipt_entry;
  rewrite ?count_entries_app, ?count_entries_cons, ?count_entries_nil;
  cbn [is_WagerCreated is_EscrowFunded is_ReceiptAccepted is_Resolved is_Payout];
  rewrite ?Z.eqb_refl; cbn [b2z].

Lemma neq_eqb (id id' : Z) : id' <> id -> (id =? id') = false.
Proof. intros Hne. apply Z.eqb_neq. congruence. Qed.

Lemma quiet_other id id' j :
  id' <> id ->
  Forall (fun e => match e with
                   | EscrowFunded i _ _ | ReceiptAccepted i _ _ _ _
                   | Resolved i _ _ | Payout i _ _ => i = id
                   | _ => True
                   end) j ->
  quiet id' j.
Proof.
  intros Hne Hall. unfold quiet.
  induction Hall as [|e j He Hall IH]; [by rewrite !count_entries_nil|].
  rewrite !count_entries_cons. destruct IH as (-> & -> & -> & ->).
  destruct e; cbn; try subst id0; rewrite ?(neq_eqb id id' Hne); by cbn.
Qed.

Lemma audit_counter st st' :
  commits st st' ->
  count_entries is_WagerCreated (journal st) = nextWagerId (storage st) ->
  count_entries is_WagerCreated (journal st') = nextWagerId (storage st').
Proof.
  intros Hc Hcount. destruct Hc; try unfold after_receipt;
    try destruct (quorum_winner _); cbn [journal storage]; count_new;
    rewrite nextWagerId_update; cbn [nextWagerId];
    repeat match goal with x := _ |- _ => subst x end; lia.
Qed.

Lemma audit_settled st st' :
  invariant st -> invariant st' -> commits st st' ->
  (forall id, settled (wager_at (storage st) id) (journal st) id) ->
  forall id, settled (wager_at (storage st') id) (journal st') id.
Proof.
  intros Hinv Hinv' Hc Hall id0. pose proof (Hall id0) as Hold.
  destruct Hc as [caller b t ra rb cl so thr m' arbs len id Hnz Hprof Hmax
                 |id side w Hp Hres Hf Hfit
                 |id root uri caller w Hparty
                 |signer r w Hopen Hpanel Hthr Hwin Hpot].
  - (* createWager *)
    cbn [storage journal] in *. rewrite wager_at_update.
    change (wager_at {| nextWagerId := id; _wagers := _wagers (storage st) |})
      with (wager_at (storage st)).
    case_decide as Hid; [subst id0|apply settled_quiet; [exact Hold|]].
    + destruct Hinv' as [_ Hinv']. destruct (Hinv' id) as [Hc' _].
      cbn [storage journal] in Hc'. rewrite wager_at_update_eq in Hc'.
      change (wager_at {| nextWagerId := id; _wagers := _wagers (storage st) |})
        with (wager_at (storage st)) in Hc'.
      assert (Hcr : created (update_wager id
                       (created_wager caller b t ra rb cl so thr m' arbs)
                       {| nextWagerId := id; _wagers := _wagers (storage st) |}) id).
      { unfold created; cbn. destruct Hinv as [Hn _]. subst id. lia. }
      pose proof (Hc' Hcr) as Hs. open_sound Hs. open_settled Hold.
      rewrite created_wager_eq in *. cbn in *.
      destruct Hinv as [Hn Hinv]. destruct (Hinv id) as [_ Hu].
      destruct Hu as [Hfr _]; [unfold created; subst id; lia|]. open_fresh Hfr.
      destruct Fvotes as [HvA HvB].
      constructor; cbn; count_new; rewrite ?Z.add_0_r; try assumption;
        try (intros Hr; rewrite Fresolved in Hr; discriminate Hr).
      rewrite HvA, HvB. lia.
    + by apply (quiet_other id); [|repeat constructor].
  - (* fundEscrow *)
    cbn [storage journal]. rewrite wager_at_update.
    case_decide as Hid;
      [subst id0
      |apply settled_quiet; [exact Hold|];
       by apply (quiet_other id); [|repeat constructor]].
    subst w. open_settled Hold.
    destruct side; cbn in Hf; constructor; cbn; count_new;
      try assumption; rewrite ?Hf in *; cbn [b2z] in *; lia.
  - (* attachEvidence *)
    cbn [storage journal]. rewrite wager_at_update.
    case_decide as Hid;
      [subst id0
      |apply settled_quiet; [exact Hold|];
       by apply (quiet_other id); [|repeat constructor]].
    subst w. open_settled Hold.
    constructor; cbn; count_new; first [assumption | lia].
  - (* submitReceipt *)
    destruct Hopen as (Hp & HfA & HfB & Hres). destruct Hpanel as [Hin Hnew].
    pose proof (created_or_fresh _ _ Hinv Hp) as Hs. subst w.
    unfold after_receipt.
    pose proof (quorum_winner_spec
                  (voted signer
                     (Receipt.winner r =? partyA (wager_at (storage st) (Receipt.wagerId r)))
                     (wager_at (storage st) (Receipt.wagerId r))
                     (wager_at (storage st) (Receipt.wagerId r)))) as Hq.
    destruct (quorum_winner _) as [win|]; cbn [storage journal];
      rewrite wager_at_update;
      (case_decide as Hid;
       [subst id0
       |apply settled_quiet; [exact Hold|];
        by apply (quiet_other (Receipt.wagerId r)); [|repeat constructor]]).
    all: remember (wager_at (storage st) (Receipt.wagerId r)) as w eqn:Hw.
    all: open_sound Hs; open_settled Hold.
    all: assert (Hbelow : votesForA w < m (profile w) /\ votesForB w < m (profile w))
           by (destruct (Z.lt_ge_cases (votesForA w) (m (profile w)));
               destruct (Z.lt_ge_cases (votesForB w) (m (profile w))); try lia;
               (assert (resolved w = true) by (apply Sresolved; lia); congruence)).
    all: destruct (Sescrow Hres) as [HsA HsB]; rewrite HfA in HsA; rewrite HfB in HsB.
    + specialize (Hpot ltac:(discriminate)).
      rewrite Hres in Tresolved, Tpayout. cbn [b2z] in Tresolved, Tpayout.
      destruct (Receipt.winner r =? partyA w); cbn in Hq;
        constructor; cbn; count_new; try lia;
        try (intros _; destruct Hq as [[? ->]|(? & ? & ->)]; lia).
    + rewrite Hres in Tresolved, Tpayout. cbn [b2z] in Tresolved, Tpayout.
      destruct (Receipt.winner r =? partyA w); cbn in Hq;
        constructor; cbn; count_new; rewrite ?Hres; cbn [b2z];
        try lia; try discriminate.
Qed.

Lemma created_of_party st id :
  invariant st -> partyA (wager_at (storage st) id) <> 0 -> created (storage st) id.
Proof.
  intros [_ Hinv] Hp. destruct (Hinv id) as [_ Hu].
  destruct (decide (created (storage st) id)) as [Hcr|Hcr]; [exact Hcr|].
  destruct (Hu Hcr) as [Hfr _]. open_fresh Hfr. contradiction.
Qed.

Lemma audit_blank st st' :
  invariant st -> commits st st' ->
  (forall id, ~ created (storage st) id -> blank (wager_at (storage st) id)) ->
  forall id, ~ created (storage st') id -> blank (wager_at (storage st') id).
Proof.
  intros Hinv Hc Hall id0.
  destruct Hc as [caller b t ra rb cl so thr m' arbs len id Hnz Hprof Hmax
                 |id side w Hp Hres Hf Hfit
                 |id root uri caller w Hparty
                 |signer r w Hopen Hpanel Hthr Hwin Hpot].
  - cbn [storage]. unfold created. rewrite nextWagerId_update. cbn [nextWagerId].
    intros Hnc. rewrite wager_at_update_ne by (subst id; destruct Hinv; lia).
    change (wager_at {| nextWagerId := id; _wagers := _wagers (storage st) |})
      with (wager_at (storage st)).
    apply Hall. unfold created. subst id. lia.
  - cbn [storage]. unfold created. rewrite nextWagerId_update. intros Hnc.
    rewrite wager_at_update_ne; [by apply Hall|].
    intros ->. apply Hnc. by apply (created_of_party st).
  - cbn [storage]. unfold created. rewrite nextWagerId_update. intros Hnc.
    rewrite wager_at_update. case_decide as Hid; [subst id0|by apply Hall].
    exact (Hall id Hnc).
  - destruct Hopen as (Hp & _). unfold after_receipt.
    destruct (quorum_winner _); cbn [storage]; unfold created;
      rewrite nextWagerId_update; intros Hnc;
      (rewrite wager_at_update_ne; [by apply Hall|]);
      intros <-; apply Hnc; by apply (created_of_party st).
Qed.

(** ** The token ledger *)

Lemma held_upto_update tok id f s k :
  held_upto tok (update_wager id f s) k =
  held_upto tok s k +
  (if decide (1 <= id <= Z.of_nat k)
   then held tok (f (wager_at s id)) - held tok (wager_at s id) else 0).
Proof.
  induction k as [|k IH]; [cbn [held_upto]; case_decide; lia|].
  cbn [held_upto]. rewrite IH, wager_at_update.
  destruct (decide (id = Z.of_nat (S k))) as [->|Hne]; repeat case_decide; lia.
Qed.

Lemma held_upto_ext tok s s' k :
  (forall i, wager_at s i = wager_at s' i) -> held_upto tok s k = held_upto tok s' k.
Proof. intros Hext. induction k as [|k IH]; cbn; [reflexivity|]. by rewrite IH, Hext. Qed.

Lemma audit_ledger st st' :
  invariant st -> commits st st' -> ledger st -> ledger st'.
Proof.
  intros Hinv Hc Hled tok. specialize (Hled tok). unfold escrowed in *.
  destruct Hc as [caller b t ra rb cl so thr m' arbs len id Hnz Hprof Hmax
                 |id side w Hp Hres Hf Hfit
                 |id root uri caller w Hparty
                 |signer r w Hopen Hpanel Hthr Hwin Hpot].
  - cbn [storage journal]. rewrite !total_app, nextWagerId_update. cbn [nextWagerId total
      fold_right inflow outflow].
    destruct Hinv as [Hn Hinv]. destruct (Hinv id) as [_ Hu].
    destruct Hu as [Hfr _]; [unfold created; subst id; lia|]. open_fresh Hfr.
    replace (Z.to_nat id) with (S (Z.to_nat (nextWagerId (storage st))))
      by (subst id; lia).
    cbn [held_upto].
    replace (Z.of_nat (S (Z.to_nat (nextWagerId (storage st))))) with id
      by (subst id; lia).
    rewrite wager_at_update_eq, held_upto_update.
    change (wager_at {| nextWagerId := id; _wagers := _wagers (storage st) |})
      with (wager_at (storage st)).
    rewrite (held_upto_ext tok _ (storage st)) by reflexivity.
    rewrite created_wager_eq. unfold held at 1. cbn.
    destruct Fstakes as [-> ->]. case_decide as Hin; [exfalso; subst id; lia|].
    destruct (t =? tok); lia.
  - cbn [storage journal]. rewrite !total_app, nextWagerId_update, held_upto_update.
    apply (created_of_party st) in Hp; [|exact Hinv]. unfold created in Hp.
    case_decide; [|lia]. fold w. unfold held.
    destruct side; cbn; destruct (token w =? tok); lia.
  - cbn [storage journal]. rewrite !total_app, nextWagerId_update, held_upto_update.
    fold w. unfold held. cbn. case_decide; lia.
  - destruct Hopen as (Hp & HfA & HfB & Hres).
    apply (created_of_party st) in Hp; [|exact Hinv]. unfold created in Hp.
    unfold after_receipt. fold w.
    destruct (unchanged_by_vote signer (Receipt.winner r =? partyA w) w w)
      as (Htok & HsA & HsB & _).
    destruct (quorum_winner _) as [win|]; cbn [storage journal];
      rewrite !total_app, nextWagerId_update, held_upto_update; fold w;
      (case_decide; [|lia]); unfold held, receipt_entry; cbn.
    + rewrite ?Htok, ?HsA, ?HsB. destruct (token w =? tok); lia.
    + rewrite ?Htok, ?HsA, ?HsB. destruct (token w =? tok); lia.
Qed.

Lemma audit_genesis : audit genesis.
Proof.
  split; [reflexivity|]. split; [|split].
  - intros id. cbn. rewrite wager_at_empty. by constructor.
  - intros id _. cbn. by rewrite wager_at_empty.
  - intros tok. reflexivity.
Qed.

Lemma reachable_audit st : reachable st -> audit st.
Proof.
  revert st. apply reachable_commits_ind; [apply audit_genesis|].
  intros st st' Hreach Hreach' (Hcount & Hsettled & Hblank & Hled) Hc.
  apply reachable_invariant in Hreach, Hreach'.
  split; [by apply (audit_counter st)|]. split; [|split].
  - by apply (audit_settled st).
  - by apply (audit_blank st).
  - by apply (audit_ledger st).
Qed.

(** ** What one transaction can change *)

Lemma same_wager_eta (w : Wager) :
  set_evidenceURI (evidenceURI w) (set_evidenceRoot (evidenceRoot w) w) = w.
Proof. by destruct w. Qed.

Lemma grows_refl w : grows w w.
Proof.
  constructor; [by repeat split | done | done | done | lia | done |].
  intros _. apply same_wager_eta.
Qed.

Lemma commits_grows st st' id :
  commits st st' -> created (storage st) id ->
  grows (wager_at (storage st) id) (wager_at (storage st') id).
Proof.
  intros Hc Hcr.
  destruct Hc as [caller b t ra rb cl so thr m' arbs len id1 Hnz Hprof Hmax
                 |id1 side w Hp Hres Hf Hfit
                 |id1 root uri caller w Hparty
                 |signer r w Hopen Hpanel Hthr Hwin Hpot].
  - cbn [storage]. rewrite wager_at_update_ne by (unfold created in Hcr; subst id1; lia).
    apply grows_refl.
  - cbn [storage]. rewrite wager_at_update.
    case_decide as Hid; [subst id1|apply grows_refl]. subst w.
    destruct side; constructor; cbn; try done; try (by repeat split);
      try lia; congruence.
  - cbn [storage]. rewrite wager_at_update.
    case_decide as Hid; [subst id1|apply grows_refl]. subst w.
    constructor; cbn; try done; try (by repeat split); try lia.
    intros _. unfold same_but_evidence. by destruct (wager_at (storage st) id).
  - destruct Hopen as (_ & _ & _ & Hres). subst w. unfold after_receipt.
    destruct (quorum_winner _); cbn [storage]; rewrite wager_at_update;
      (case_decide as Hid; [rewrite <- Hid in *|apply grows_refl]);
      destruct (Receipt.winner r =? _);
      constructor; cbn; try done; try (by repeat split); try lia;
      try congruence; try apply union_subseteq_r.
Qed.

(** ** Creation *)

Lemma createWager_runs b t ra rb cl so thr m' arbs env st :
  let len := Z.of_nat (length arbs) in
  let id := nextWagerId (storage st) + 1 in
  createWager_valid b t ra rb thr m' arbs -> id <= MAX_UINT256 ->
  createWager b t ra rb cl so thr m' arbs env st =
  Done id
    (MkState
       (update_wager id (created_wager (msg_sender env) b t ra rb cl so thr m' arbs)
          (MkStorage id (_wagers (storage st))))
       (journal st ++ [WagerCreated id (msg_sender env) b t ra rb thr m' (len mod 256)])).
Proof.
  intros len id (Hb & Ht & Hra & Hrb & Hthr & Hthr' & Harbs & Hm & Hm') Hmax.
  unfold createWager. fold len.
  assert (Hlen : len <> 0) by (subst len; destruct arbs; [done | cbn; lia]).
  rewrite (proj2 (Z.eqb_neq b 0) Hb), (proj2 (Z.eqb_neq t 0) Ht),
    (proj2 (Z.eqb_neq ra 0) Hra), (proj2 (Z.eqb_neq rb 0) Hrb),
    (proj2 (Z.eqb_neq thr 0) Hthr), (proj2 (Z.eqb_neq len 0) Hlen),
    (proj2 (Z.eqb_neq m' 0) Hm).
  destruct (Z.gtb_spec thr 10000); [lia|].
  destruct (Z.gtb_spec m' len); [lia|].
  cbn [orb]. unfold mbind at 1, M_bind at 1, pre_increment_nextWagerId.
  fold id. destruct (Z.leb_spec id MAX_UINT256); [|lia].
  exec. rewrite !update_wager_twice.
  change (for_each arbs _) with (for_each arbs (fun a => sstore id (mark_arbitrator a))).
  rewrite for_each_mark. cbn. rewrite wager_at_update_eq.
  unfold created_wager. by rewrite !fold_mark.
Qed.

Lemma createWager_rejects b t ra rb cl so thr m' arbs env st :
  ~ createWager_valid b t ra rb thr m' arbs ->
  createWager b t ra rb cl so thr m' arbs env st = Reverted InvalidParams st.
Proof.
  intros Hinvalid. unfold createWager.
  destruct (Z.eqb_spec b 0); [reflexivity|].
  destruct (Z.eqb_spec t 0); [reflexivity|].
  destruct (Z.eqb_spec ra 0); [reflexivity|].
  destruct (Z.eqb_spec rb 0); [reflexivity|].
  destruct (Z.eqb_spec thr 0); [reflexivity|].
  destruct (Z.gtb_spec thr 10000); [reflexivity|].
  destruct (Z.eqb_spec (Z.of_nat (length arbs)) 0); [reflexivity|].
  destruct (Z.eqb_spec m' 0); [reflexivity|].
  destruct (Z.gtb_spec m' (Z.of_nat (length arbs))); [reflexivity|].
  exfalso. apply Hinvalid. repeat split; try assumption.
  intros ->. cbn in *. lia.
Qed.

(** X1. [createWager] rejects its arguments with [InvalidParams], before it
    writes anything, exactly when one of its checks fails: a zero [partyB] or
    token, a zero required stake, a threshold outside 1..10000, an empty list
    of arbitrators, or an [m] that is zero or above the length of the list.
    Arguments that pass are never adjusted: the call returns [nextWagerId + 1],
    makes that the new counter, writes the wager under that id alone, leaves
    every other wager as it was and moves no tokens (its only journal entry is
    the event [WagerCreated]). When the counter is at the top of [uint256] the
    call panics. *)
Theorem createWager_decides b t ra rb cl so thr m' arbs env st :
  let out := createWager b t ra rb cl so thr m' arbs env st in
  let id := nextWagerId (storage st) + 1 in
  (~ createWager_valid b t ra rb thr m' arbs -> out = Reverted InvalidParams st) /\
  (createWager_valid b t ra rb thr m' arbs ->
   (MAX_UINT256 < id -> out = Reverted Panic st) /\
   (id <= MAX_UINT256 ->
    exists st',
      out = Done id st' /\
      nextWagerId (storage st') = id /\
      wager_at (storage st') id =
        created_wager (msg_sender env) b t ra rb cl so thr m' arbs
          (wager_at (storage st) id) /\
      (forall id', id' <> id -> wager_at (storage st') id' = wager_at (storage st) id') /\
      journal st' =
        journal st ++
          [WagerCreated id (msg_sender env) b t ra rb thr m'
             (Z.of_nat (length arbs) mod 256)])).
Proof.
  intros out id. split; [apply createWager_rejects|].
  intros Hvalid. split.
  - intros Hfull. subst out.
    destruct Hvalid as (Hb & Ht & Hra & Hrb & Hthr & Hthr' & Harbs & Hm & Hm').
    unfold createWager.
    assert (Hlen : Z.of_nat (length arbs) <> 0) by (destruct arbs; [done | cbn; lia]).
    rewrite (proj2 (Z.eqb_neq b 0) Hb), (proj2 (Z.eqb_neq t 0) Ht),
      (proj2 (Z.eqb_neq ra 0) Hra), (proj2 (Z.eqb_neq rb 0) Hrb),
      (proj2 (Z.eqb_neq thr 0) Hthr), (proj2 (Z.eqb_neq _ 0) Hlen),
      (proj2 (Z.eqb_neq m' 0) Hm).
    destruct (Z.gtb_spec thr 10000); [lia|].
    destruct (Z.gtb_spec m' (Z.of_nat (length arbs))); [lia|].
    cbn [orb]. unfold mbind at 1, M_bind at 1, pre_increment_nextWagerId.
    fold id. by destruct (Z.leb_spec id MAX_UINT256); [lia|].
  - intros Hfits. eexists. split; [by apply createWager_runs|].
    cbn [storage journal]. split; [reflexivity|]. split; [|split; [|reflexivity]].
    + by rewrite wager_at_update_eq.
    + intros id' Hne. by rewrite wager_at_update_ne by (intros Heq; by apply Hne).
Qed.

(** X2. Reading a wager back after [createWager]: in a reachable state, the
    id that a successful call returns reads, through the four getters, as the
    caller and the arguments of the call, unfunded, unresolved, without winner
    and without votes, with a panel of exactly the listed arbitrators and with
    [n] the length of the list modulo 256. *)
Theorem created_wager_reads b t ra rb cl so thr m' arbs env st id st' env' :
  reachable st ->
  createWager b t ra rb cl so thr m' arbs env st = Done id st' ->
  getWagerCore id env' st' =
    Done (msg_sender env, b, t, ra, rb, false, false, false, 0, 0) st' /\
  getWagerProfile id env' st' =
    Done (thr, m', Z.of_nat (length arbs) mod 256, arbs) st' /\
  getWagerVotes id env' st' = Done (0, 0) st' /\
  (exists root uri, getWagerMeta id env' st' = Done (root, uri, cl, so) st') /\
  (forall a, a ∈ isArbitrator (profile (wager_at (storage st') id)) <-> In a arbs).
Proof.
  intros Hreach Hrun.
  apply reachable_invariant in Hreach as Hinv. destruct Hinv as [Hn _].
  apply reachable_audit in Hreach as (_ & _ & Hblank & _).
  apply createWager_Done in Hrun as (_ & _ & -> & _ & ->).
  specialize (Hblank (nextWagerId (storage st) + 1)).
  destruct (blank_fields _ (Hblank ltac:(unfold created; lia)))
    as (_ & (_ & _ & _ & _) & _ & (HfA & HfB & Hres) & (Hwin & Hconf) & Hprof
        & _ & (HvA & HvB)).
  unfold getWagerCore, getWagerProfile, getWagerVotes, getWagerMeta. exec.
  rewrite !wager_at_update_eq, created_wager_eq.
  change (wager_at {| nextWagerId := nextWagerId (storage st) + 1;
                      _wagers := _wagers (storage st) |})
    with (wager_at (storage st)).
  cbn. rewrite HfA, HfB, Hres, Hwin, Hconf, HvA, HvB, Hprof. cbn.
  repeat split; eauto.
  - intros Ha. apply elem_of_union in Ha as [Ha|Ha].
    + by rewrite elem_of_list_to_set, list_elem_of_In in Ha.
    + by apply not_elem_of_empty in Ha.
  - intros Ha. apply elem_of_union_l. by rewrite elem_of_list_to_set, list_elem_of_In.
Qed.


Lemma parties_set st :
  reachable st ->
  forall id, created (storage st) id ->
    partyB (wager_at (storage st) id) <> 0 /\ token (wager_at (storage st) id) <> 0.
Proof.
  revert st.
  apply (reachable_commits_ind
           (fun st => forall id, created (storage st) id ->
              partyB (wager_at (storage st) id) <> 0 /\
              token (wager_at (storage st) id) <> 0)).
  - intros id. unfold created; cbn. lia.
  - intros st st' Hreach _ IH Hc id Hcr'.
    apply reachable_invariant in Hreach as [Hn _].
    destruct (decide (created (storage st) id)) as [Hcr|Hcr].
    + destruct (commits_grows st st' id Hc Hcr) as [(_ & -> & -> & _) _ _ _ _ _ _].
      by apply IH.
    + destruct Hc as [caller b t ra rb cl so thr m' arbs len id1 Hnz Hprof Hmax
                     |id1 side w Hp Hres Hf Hfit
                     |id1 root uri caller w Hparty
                     |signer r w Hopen Hpanel Hthr Hwin Hpot];
        try (exfalso; apply Hcr; revert Hcr'; try unfold after_receipt;
             try destruct (quorum_winner _); unfold created; cbn [storage];
             by rewrite nextWagerId_update).
      unfold created in Hcr, Hcr'. cbn [storage] in *.
      rewrite nextWagerId_update in Hcr'. cbn [nextWagerId] in Hcr'.
      assert (id = id1) as -> by (subst id1; lia).
      rewrite wager_at_update_eq, created_wager_eq. cbn. tauto.
Qed.

(** X4. The profile and the terms of every created wager, in every reachable
    state: [1 <= m <= |arbitrators|] and [m <= 255]; the stored [n] is
    [|arbitrators| mod 256], hence [|arbitrators|] for a list of at most 255;
    the threshold is within 1..10000; both required stakes are positive
    [uint256] values; [partyB] and the token are not the zero address; and the
    membership mapping [isArbitrator] holds exactly the listed arbitrators. *)
Theorem created_wager_wellformed st id :
  reachable st -> created (storage st) id ->
  let w := wager_at (storage st) id in
  let p := profile w in
  let len := Z.of_nat (length (arbitrators p)) in
  (1 <= m p <= len /\ m p <= MAX_UINT8) /\
  (n p = len mod 256 /\ (len <= MAX_UINT8 -> n p = len)) /\
  1 <= confidenceThresholdBps p <= 10000 /\
  (1 <= stakeARequired w <= MAX_UINT256 /\ 1 <= stakeBRequired w <= MAX_UINT256) /\
  (partyB w <> 0 /\ token w <> 0) /\
  (forall a, a ∈ isArbitrator p <-> In a (arbitrators p)).
Proof.
  intros Hreach Hcr w p len.
  pose proof (parties_set st Hreach id Hcr) as Hparties.
  apply reachable_invariant in Hreach as [_ Hinv]. destruct (Hinv id) as [Hc _].
  pose proof (Hc Hcr) as Hs. open_sound Hs. fold w p len in Sm, Sn, Spanel.
  split; [split; assumption|]. split.
  { split; [exact Sn|]. intros Hshort. rewrite Sn. apply Z.mod_small.
    unfold MAX_UINT8 in Hshort. subst len. lia. }
  split; [exact Sthr|]. split; [exact Sreq|]. split; [exact Hparties|].
  intros a. by rewrite Spanel, elem_of_list_to_set, list_elem_of_In.
Qed.

(** X5. Reading an id under which no wager was created does not fail: in every
    reachable state [getWagerCore], [getWagerProfile] and [getWagerVotes]
    return zeros, [false] and the empty list for it, and [getWagerMeta] an
    empty claim and empty sources. *)
Theorem unknown_wager_reads st id env :
  reachable st -> ~ created (storage st) id ->
  getWagerCore id env st = Done (0, 0, 0, 0, 0, false, false, false, 0, 0) st /\
  getWagerProfile id env st = Done (0, 0, 0, []) st /\
  getWagerVotes id env st = Done (0, 0) st /\
  exists root uri,
    getWagerMeta id env st = Done (root, uri, EmptyString, EmptyString) st.
Proof.
  intros Hreach Hnc. apply reachable_audit in Hreach as (_ & _ & Hblank & _).
  destruct (blank_fields _ (Hblank id Hnc))
    as ((HpA & HpB & Htok) & (HrA & HrB & _ & _) & (Hcl & Hso) & (HfA & HfB & Hres)
        & (Hwin & Hconf) & Hprof & _ & (HvA & HvB)).
  unfold getWagerCore, getWagerProfile, getWagerVotes, getWagerMeta. exec.
  rewrite HpA, HpB, Htok, HrA, HrB, HfA, HfB, Hres, Hwin, Hconf, Hprof, HvA, HvB,
    Hcl, Hso.
  repeat split; eauto.
Qed.

(** ** The life of a wager *)

(** X6. No transaction changes the terms of a created wager: its parties, its
    token, its required stakes, its claim and sources and its whole profile
    stay as [createWager] wrote them. Its flags only go from [false] to
    [true], its vote counts never decrease and the set of arbitrators who have
    voted only grows. *)
Theorem created_wager_grows env c st id :
  created (storage st) id ->
  let w := wager_at (storage st) id in
  let w' := wager_at (storage (fst (transact env c st))) id in
  same_terms w w' /\
  (fundedA w = true -> fundedA w' = true) /\
  (fundedB w = true -> fundedB w' = true) /\
  (resolved w = true -> resolved w' = true) /\
  (votesForA w <= votesForA w' /\ votesForB w <= votesForB w') /\
  arbitratorHasVoted w ⊆ arbitratorHasVoted w'.
Proof.
  intros Hcr w w'.
  assert (Hg : grows w w').
  { subst w w'. destruct (transact_cases env c st) as [[_ Hc]|[_ ->]];
      [by apply commits_grows | apply grows_refl]. }
  destruct Hg as [Hterms HfA HfB Hres Hvotes Hvoters _]. auto 10.
Qed.

Lemma resolved_exists st id :
  invariant st -> resolved (wager_at (storage st) id) = true ->
  created (storage st) id /\
  partyA (wager_at (storage st) id) <> 0 /\
  fundedA (wager_at (storage st) id) = true /\
  fundedB (wager_at (storage st) id) = true.
Proof.
  intros [_ Hinv] Hres. destruct (Hinv id) as [Hc Hu].
  destruct (decide (created (storage st) id)) as [Hcr|Hcr].
  - pose proof (Hc Hcr) as Hs. open_sound Hs.
    destruct (Sfinal Hres) as (_ & [HfA HfB] & _). auto.
  - destruct (Hu Hcr) as [Hfr _]. open_fresh Hfr. congruence.
Qed.

(** X7. Resolution is final. In every reachable state, for a resolved wager
    every [fundEscrow] and every [submitReceipt] fails with [AlreadyResolved],
    whoever calls and whatever the arguments are, and whatever transaction is
    sent next, the wager is afterwards as it was in every field but the two
    evidence fields: winner, winning confidence, votes, flags and the zero
    balances stay. *)
Theorem resolved_is_final st id :
  reachable st -> resolved (wager_at (storage st) id) = true ->
  (forall side env, fundEscrow id side env st = Reverted AlreadyResolved st) /\
  (forall r signature env,
     Receipt.wagerId r = id ->
     submitReceipt r signature env st = Reverted AlreadyResolved st) /\
  (forall env c,
     same_but_evidence (wager_at (storage st) id)
       (wager_at (storage (fst (transact env c st))) id)).
Proof.
  intros Hreach Hres. apply reachable_invariant in Hreach as Hinv.
  destruct (resolved_exists st id Hinv Hres) as (Hcr & Hp & HfA & HfB).
  split; [|split].
  - intros side env. unfold fundEscrow. exec.
    destruct (Z.eqb_spec (partyA (wager_at (storage st) id)) 0); [contradiction|].
    by rewrite Hres.
  - intros r signature env <-. by apply submitReceipt_AlreadyResolved.
  - intros env c. destruct (transact_cases env c st) as [[_ Hc]|[_ ->]].
    + destruct (commits_grows st _ id Hc Hcr) as [_ _ _ _ _ _ Hterminal]. auto.
    + apply same_wager_eta.
Qed.



(** ** Receipts *)





(** X11. Who wins. In every reachable state no count of a created wager is
    above [m], and together the two counts are at most [2m - 1]. A resolved
    wager has exactly one side whose count is [m], the other side is strictly
    below [m], and the winner is the party of the side that holds [m] votes:
    the winner is never the party with fewer votes, and never anyone but the
    two parties. *)
Theorem winner_has_quorum st id :
  reachable st -> created (storage st) id ->
  let w := wager_at (storage st) id in
  let m := m (profile w) in
  (0 <= votesForA w <= m /\ 0 <= votesForB w <= m) /\
  votesForA w + votesForB w <= 2 * m - 1 /\
  (resolved w = true ->
   (winner w = partyA w /\ votesForA w = m /\ votesForB w < m) \/
   (winner w = partyB w /\ votesForB w = m /\ votesForA w < m)).
Proof.
  intros Hreach Hcr w m0.
  apply reachable_invariant in Hreach as Hinv. destruct Hinv as [_ Hinv].
  apply reachable_audit in Hreach as (_ & Hsettled & _).
  destruct (Hinv id) as [Hc _]. pose proof (Hc Hcr) as Hs. open_sound Hs.
  pose proof (Hsettled id) as Ht. open_settled Ht.
  fold w in Svotes, Sresolved, Tcap, Twinner. fold m0 in Sresolved, Tcap, Twinner.
  split; [lia|]. split; [|exact Twinner].
  destruct (resolved w) eqn:Hres.
  - destruct (Twinner eq_refl) as [(_ & HA & HB)|(_ & HB & HA)]; lia.
  - assert (~ (m0 <= votesForA w \/ m0 <= votesForB w)) by (rewrite <- Sresolved; congruence).
    lia.
Qed.

(** X12. Wagers that can never be resolved. [createWager] compares [m] with
    the length of the list of arbitrators, not with the number of different
    addresses in it, and does not compare the sum of the two required stakes
    with [uint256]. In every reachable state the votes of a created wager are
    at most the number of different addresses listed, and a resolved wager
    has required stakes whose sum fits [uint256]. So a wager whose list has
    fewer than [m] different addresses, or whose required stakes together
    exceed [uint256], is not resolved in any reachable state, and what its
    parties have funded stays in its escrow balances. *)
Theorem unresolvable_wagers st id :
  reachable st -> created (storage st) id ->
  let w := wager_at (storage st) id in
  let distinct := Z.of_nat (size (list_to_set (arbitrators (profile w)) : gset Z)) in
  votesForA w + votesForB w <= distinct /\
  (resolved w = true -> stakeARequired w + stakeBRequired w <= MAX_UINT256) /\
  (distinct < m (profile w) \/ MAX_UINT256 < stakeARequired w + stakeBRequired w ->
   resolved w = false /\
   stakeA w = (if fundedA w then stakeARequired w else 0) /\
   stakeB w = (if fundedB w then stakeBRequired w else 0)).
Proof.
  intros Hreach Hcr w distinct.
  apply reachable_invariant in Hreach as Hinv. destruct Hinv as [_ Hinv].
  apply reachable_audit in Hreach as (_ & Hsettled & _).
  destruct (Hinv id) as [Hc _]. pose proof (Hc Hcr) as Hs. open_sound Hs.
  pose proof (Hsettled id) as Ht. open_settled Ht.
  fold w in Spanel, Svoters, Stally, Svotes, Sresolved, Sescrow, Tpot.
  assert (Hvotes : votesForA w + votesForB w <= distinct).
  { rewrite Stally. subst distinct. rewrite <- Spanel.
    apply inj_le. by apply subseteq_size. }
  split; [exact Hvotes|]. split; [exact Tpot|].
  intros Hstuck.
  assert (Hres : resolved w = false).
  { destruct (resolved w) eqn:Hres; [exfalso|reflexivity].
    destruct Hstuck as [Hfew|Hbig]; [|specialize (Tpot eq_refl); lia].
    destruct (proj1 Sresolved eq_refl); lia. }
  split; [exact Hres|]. by apply Sescrow.
Qed.

(** ** Tokens *)

Lemma held_nonneg st tok id : invariant st -> 0 <= held tok (wager_at (storage st) id).
Proof.
  intros [_ Hinv]. destruct (Hinv id) as [Hc Hu]. unfold held.
  destruct (_ =? tok); [|lia].
  destruct (decide (created (storage st) id)) as [Hcr|Hcr].
  - pose proof (Hc Hcr) as Hs. open_sound Hs.
    destruct (resolved (wager_at (storage st) id)) eqn:Hres.
    + destruct (Sfinal eq_refl) as ([-> ->] & _). lia.
    + destruct (Sescrow eq_refl) as [-> ->].
      destruct (fundedA _), (fundedB _); lia.
  - destruct (Hu Hcr) as [Hfr _]. open_fresh Hfr. lia.
Qed.

Lemma held_upto_nonneg st tok k : invariant st -> 0 <= held_upto tok (storage st) k.
Proof.
  intros Hinv. induction k as [|k IH]; [reflexivity|].
  cbn [held_upto]. pose proof (held_nonneg st tok (Z.of_nat (S k)) Hinv). lia.
Qed.

Lemma held_le_upto st tok id k :
  invariant st -> 1 <= id <= Z.of_nat k ->
  held tok (wager_at (storage st) id) <= held_upto tok (storage st) k.
Proof.
  intros Hinv. induction k as [|k IH]; [lia|]. intros Hid.
  cbn [held_upto].
  destruct (decide (id = Z.of_nat (S k))) as [->|Hne].
  - pose proof (held_upto_nonneg st tok k Hinv). lia.
  - pose proof (held_nonneg st tok (Z.of_nat (S k)) Hinv). specialize (IH ltac:(lia)). lia.
Qed.

Lemma reachable_pulls st : reachable st -> pulls_to_this (journal st).
Proof.
  revert st. apply (reachable_commits_ind (fun st => pulls_to_this (journal st))).
  - constructor.
  - intros st st' _ _ IH Hc. unfold pulls_to_this in *.
    destruct Hc as [caller b t ra rb cl so thr m' arbs len id1 Hnz Hprof Hmax
                   |id1 side w Hp Hres Hf Hfit
                   |id1 root uri caller w Hparty
                   |signer r w Hopen Hpanel Hthr Hwin Hpot];
      try unfold after_receipt; try destruct (quorum_winner _);
      cbn [journal]; apply Forall_app; (split; [exact IH|]);
      repeat constructor.
Qed.

(** X13. The books balance for every token. In every reachable state, the
    amounts the contract has pulled of a token with [safeTransferFrom], less
    the amounts it has sent of it with [safeTransfer], are the sum of the
    escrow balances [stakeA + stakeB] of the wagers in that token. No balance
    is negative, so the contract never sends more of a token than it has
    pulled, and the escrow of each wager is covered by the difference. Every
    pull is addressed to the contract itself. *)
Theorem escrow_ledger st tok :
  reachable st ->
  let pulled := total (inflow tok) (journal st) in
  let paid := total (outflow tok) (journal st) in
  pulled - paid = escrowed tok (storage st) /\
  paid <= pulled /\
  (forall id, created (storage st) id ->
     0 <= held tok (wager_at (storage st) id) <= pulled - paid) /\
  pulls_to_this (journal st).
Proof.
  intros Hreach pulled paid.
  apply reachable_invariant in Hreach as Hinv.
  apply reachable_pulls in Hreach as Hpulls.
  apply reachable_audit in Hreach as (_ & _ & _ & Hledger).
  specialize (Hledger tok). fold pulled paid in Hledger.
  split; [exact Hledger|]. split; [|split; [|exact Hpulls]].
  - pose proof (held_upto_nonneg st tok (Z.to_nat (nextWagerId (storage st))) Hinv) as H0.
    unfold escrowed in Hledger. lia.
  - intros id Hcr. split; [by apply held_nonneg|]. rewrite Hledger.
    apply held_le_upto; [exact Hinv|]. unfold created in Hcr. lia.
Qed.

(** ** Events *)









(** X16. What [submitReceipt] does not look at. The caller plays no role:
    anyone can send an arbitrator's signed receipt. The signature counts only
    through the address recovered from it and the digest, and the timestamp
    of the receipt only as part of what is signed: it is not compared with
    anything, so a receipt does not expire. Two submissions for the same
    wager, winner, confidence and trace URI whose signatures recover to the
    same address (or both fail to recover) have the same outcome in the same
    state, the journal included, whoever sends them and whatever their
    timestamps are, as long as the token answers alike. *)
Theorem submitReceipt_relayed r signature env r' signature' env' st :
  Receipt.wagerId r' = Receipt.wagerId r ->
  Receipt.winner r' = Receipt.winner r ->
  Receipt.confidenceBps r' = Receipt.confidenceBps r ->
  Receipt.traceURI r' = Receipt.traceURI r ->
  ECDSA_recover (receiptDigest r') signature' = ECDSA_recover (receiptDigest r) signature ->
  token_ok env' = token_ok env ->
  submitReceipt r' signature' env' st = submitReceipt r signature env st.
Proof.
  intros Hid Hwin Hconf Huri Hrec Hok. unfold receiptDigest in Hrec.
  unfold submitReceipt, recover. rewrite Hrec, Hid, Hwin, Hconf, Huri.
  exec. set (w := wager_at (storage st) (Receipt.wagerId r)).
  destruct (partyA w =? 0); [reflexivity|].
  destruct (negb (fundedA w) || negb (fundedB w)); [reflexivity|].
  destruct (resolved w) eqn:Hres; [reflexivity|].
  destruct (ECDSA_recover (_hashReceiptTyped r) signature) as [signer|]; [|reflexivity].
  exec.
  destruct (negb (bool_decide (signer ∈ isArbitrator (profile w)))); [reflexivity|].
  destruct (bool_decide (signer ∈ arbitratorHasVoted w)); [reflexivity|].
  destruct (Receipt.confidenceBps r <? confidenceThresholdBps (profile w)); [reflexivity|].
  destruct (negb (Receipt.winner r =? partyA w) && negb (Receipt.winner r =? partyB w));
    [reflexivity|].
  cbn. unfold _finalize.
  destruct (Receipt.winner r =? partyA w); exec;
    (destruct (_ <=? MAX_UINT256); cbn; [|reflexivity]);
    rewrite ?wager_at_update_eq; cbn;
    (destruct (_ >=? _); exec; rewrite ?wager_at_update_eq; cbn;
     [|destruct (_ >=? _); exec; rewrite ?wager_at_update_eq; cbn; [|reflexivity]]);
    fold w; rewrite Hres;
    (destruct (_ <=? MAX_UINT256); cbn; [|reflexivity]);
    rewrite Hok; reflexivity.
Qed.

(** ** The signed encoding of a receipt *)

Lemma byte_of_Z_value x : Z.of_N (Byte.to_N (byte_of_Z x)) = x mod 256.
Proof.
  unfold byte_of_Z. change 255 with (Z.ones 8). rewrite Z.land_ones by lia.
  change (2 ^ 8) with 256. pose proof (Z.mod_pos_bound x 256 ltac:(lia)) as Hlt.
  destruct (Byte.of_N (Z.to_N (x mod 256))) as [b|] eqn:Hb.
  - apply Byte.to_of_N in Hb. rewrite Hb. lia.
  - apply Byte.of_N_None_iff in Hb. lia.
Qed.

Lemma word_of_bytes_shifts z (k : nat) acc :
  fold_left (fun a b => a * 256 + Z.of_N (Byte.to_N b))
    (map (fun i : nat => byte_of_Z (Z.shiftr z (8 * (Z.of_nat k - 1 - Z.of_nat i))))
       (seq 0 k)) acc =
  acc * 2 ^ (8 * Z.of_nat k) + z mod 2 ^ (8 * Z.of_nat k).
Proof.
  revert acc. induction k as [|k IH]; intros acc.
  - cbn. rewrite Z.mod_1_r. lia.
  - rewrite <- cons_seq, <- fmap_S_seq. cbn [map fold_left].
    change (fmap S (seq 0 k)) with (map S (seq 0 k)). rewrite map_map.
    rewrite (map_ext _ (fun i : nat =>
               byte_of_Z (Z.shiftr z (8 * (Z.of_nat k - 1 - Z.of_nat i)))))
      by (intros i; do 2 f_equal; lia).
    rewrite IH, byte_of_Z_value.
    replace (8 * (Z.of_nat (S k) - 1 - Z.of_nat 0)) with (8 * Z.of_nat k) by lia.
    rewrite Z.shiftr_div_pow2 by lia.
    replace (8 * Z.of_nat (S k)) with (8 * Z.of_nat k + 8) by lia.
    rewrite Z.pow_add_r by lia. change (2 ^ 8) with 256.
    rewrite (Z.rem_mul_r z (2 ^ (8 * Z.of_nat k)) 256) by lia. lia.
Qed.

Lemma word_of_abi_word z : word_of_bytes (abi_word z) = z mod 2 ^ 256.
Proof.
  unfold word_of_bytes, abi_word.
  rewrite (map_ext _ (fun i : nat =>
             byte_of_Z (Z.shiftr z (8 * (Z.of_nat 32 - 1 - Z.of_nat i)))))
    by (intros i; do 2 f_equal; lia).
  rewrite word_of_bytes_shifts. reflexivity.
Qed.

Lemma length_abi_word z : length (abi_word z) = 32%nat.
Proof. unfold abi_word. by rewrite length_map, length_seq. Qed.

Lemma abi_decode_encode ws :
  abi_decode (length ws) (abi_encode ws) = map (fun z => z mod 2 ^ 256) ws.
Proof.
  unfold abi_encode. induction ws as [|z ws IH]; [reflexivity|].
  cbn [length map concat abi_decode].
  rewrite firstn_app, skipn_app, length_abi_word, Nat.sub_diag.
  rewrite firstn_all2 by (by rewrite length_abi_word).
  rewrite skipn_all2 by (by rewrite length_abi_word).
  cbn [firstn skipn app]. rewrite app_nil_r, word_of_abi_word.
  change (drop 0 (concat (map abi_word ws))) with (concat (map abi_word ws)).
  by rewrite IH.
Qed.

(** X17. What an arbitrator signs. The bytes that [_hashReceiptTyped] hashes
    are six words of 32 bytes, 192 bytes in all, and can be read back: they
    give the type hash, the wager id, the winner, the confidence, the hash of
    the trace URI and the timestamp of the receipt. So two receipts with the
    same encoding agree on id, winner, confidence and timestamp, and on the
    hash of their trace URI: no field runs into its neighbour, and the digest
    of a receipt can stand for another receipt only through a collision of
    [keccak256]. *)
Theorem receipt_encoding_binds r r' :
  wf_receipt r = true -> wf_receipt r' = true ->
  let hashed (x : ArbitrationReceipt) :=
    keccak256 (list_byte_of_string (Receipt.traceURI x)) mod 2 ^ 256 in
  (receiptDigest r = _hashTypedDataV4 (keccak256 (abi_encode (receipt_words r))) /\
   length (abi_encode (receipt_words r)) = 192%nat /\
   abi_decode 6 (abi_encode (receipt_words r)) =
     [ARBITRATION_RECEIPT_TYPEHASH; Receipt.wagerId r; Receipt.winner r;
      Receipt.confidenceBps r; hashed r; Receipt.timestamp r]) /\
  (abi_encode (receipt_words r) = abi_encode (receipt_words r') ->
   Receipt.wagerId r = Receipt.wagerId r' /\ Receipt.winner r = Receipt.winner r' /\
   Receipt.confidenceBps r = Receipt.confidenceBps r' /\
   Receipt.timestamp r = Receipt.timestamp r' /\ hashed r = hashed r').
Proof.
  intros Hwf Hwf' hashed.
  assert (Hread : forall x, wf_receipt x = true ->
            abi_decode 6 (abi_encode (receipt_words x)) =
            [ARBITRATION_RECEIPT_TYPEHASH; Receipt.wagerId x; Receipt.winner x;
             Receipt.confidenceBps x; hashed x; Receipt.timestamp x]).
  { intros x Hx. unfold wf_receipt in Hx.
    repeat (apply andb_prop in Hx as [Hx ?]).
    repeat match goal with H : in_range _ _ = true |- _ => apply in_range_spec in H end.
    change 6%nat with (length (receipt_words x)). rewrite abi_decode_encode.
    unfold receipt_words, MAX_UINT256, MAX_UINT160, MAX_UINT96 in *. cbn [map].
    rewrite (Z.mod_small (Receipt.wagerId x)), (Z.mod_small (Receipt.winner x)),
      (Z.mod_small (Receipt.confidenceBps x)), (Z.mod_small (Receipt.timestamp x))
      by lia.
    reflexivity. }
  split.
  - split; [reflexivity|]. split; [|by apply Hread].
    unfold abi_encode, receipt_words. cbn [map concat].
    by rewrite !length_app, !length_abi_word.
  - intros Henc. pose proof (Hread r Hwf) as Hr. pose proof (Hread r' Hwf') as Hr'.
    rewrite Henc, Hr' in Hr. injection Hr. intros. repeat split; congruence.
Qed.

(** ** A wager of one party against itself *)

Lemma self_wager_tally st :
  reachable st ->
  forall id,
    partyA (wager_at (storage st) id) = partyB (wager_at (storage st) id) ->
    votesForB (wager_at (storage st) id) = 0.
Proof.
  revert st.
  apply (reachable_commits_ind
           (fun st => forall id,
              partyA (wager_at (storage st) id) = partyB (wager_at (storage st) id) ->
              votesForB (wager_at (storage st) id) = 0)).
  - intros id _. by rewrite wager_at_empty.
  - intros st st' Hreach _ IH Hc id.
    apply reachable_invariant in Hreach as [Hn Hinv].
    destruct Hc as [caller b t ra rb cl so thr m' arbs len id1 Hnz Hprof Hmax
                   |id1 side w Hp Hres Hf Hfit
                   |id1 root uri caller w Hparty
                   |signer r w Hopen Hpanel Hthr Hwin Hpot].
    + cbn [storage]. rewrite wager_at_update.
      case_decide as Hid; [|apply IH]. subst id.
      rewrite created_wager_eq. cbn. intros _.
      destruct (Hinv id1) as [_ Hu].
      destruct (Hu ltac:(unfold created; subst id1; lia)) as [Hfr _].
      open_fresh Hfr.
      change (wager_at {| nextWagerId := id1; _wagers := _wagers (storage st) |})
        with (wager_at (storage st)).
      by destruct Fvotes.
    + cbn [storage]. rewrite wager_at_update.
      case_decide as Hid; [|apply IH]. subst id. fold w.
      intros Hsame. rewrite <- (IH id1); [by destruct side | by destruct side].
    + cbn [storage]. rewrite wager_at_update.
      case_decide as Hid; [|apply IH]. subst id. apply IH.
    + unfold after_receipt. fold w.
      destruct (quorum_winner _); cbn [storage]; rewrite wager_at_update;
        (case_decide as Hid; [|apply IH]); subst id; fold w;
        (destruct (Z.eqb_spec (Receipt.winner r) (partyA w)) as [HwA|HwA];
         cbn; intros Hsame;
         [by apply IH | destruct Hwin as [Hwin|Hwin]; congruence]).
Qed.

(** X18. A party can wager against itself: [createWager] does not compare
    [partyB] with the caller. In every reachable state a wager whose two
    parties are the same address has no vote for side B, since a receipt is
    counted for A whenever its winner is [partyA]; if it is resolved, the
    winner is that address and it is side A that holds [m] votes. *)
Theorem self_wager_votes st id :
  reachable st ->
  let w := wager_at (storage st) id in
  partyA w = partyB w ->
  votesForB w = 0 /\
  (resolved w = true -> winner w = partyA w /\ votesForA w = m (profile w)).
Proof.
  intros Hreach w Hsame.
  pose proof (self_wager_tally st Hreach id Hsame) as HB. fold w in HB.
  split; [exact HB|]. intros Hres.
  apply reachable_invariant in Hreach as Hinv.
  apply reachable_audit in Hreach as (_ & Hsettled & _).
  destruct (resolved_exists st id Hinv Hres) as (Hcr & _).
  destruct Hinv as [_ Hinv]. destruct (Hinv id) as [Hc _].
  pose proof (Hc Hcr) as Hs. open_sound Hs.
  pose proof (Hsettled id) as Ht. open_settled Ht. fold w in Twinner, Sm.
  destruct (Twinner Hres) as [(Hwin & HA & _)|(Hwin & HB' & _)]; [by split|].
  exfalso. lia.
Qed.

End Properties.

(** * The properties on the concrete deployment *)

Lemma demo_created_reachable : reachable (prim := demo) demo_created.
Proof. apply (reachable_transact (prim := demo)); [apply reachable_genesis | reflexivity..]. Qed.

Lemma demo_half_funded_reachable : reachable (prim := demo) demo_half_funded.
Proof.
  apply (reachable_transact (prim := demo));
    [apply demo_created_reachable | reflexivity..].
Qed.

Lemma demo_funded_reachable : reachable (prim := demo) demo_funded.
Proof.
  apply (reachable_transact (prim := demo));
    [apply demo_half_funded_reachable | reflexivity..].
Qed.

Lemma demo_one_vote_reachable : reachable (prim := demo) demo_one_vote.
Proof.
  apply (reachable_transact (prim := demo));
    [apply demo_funded_reachable | reflexivity..].
Qed.

Lemma demo_resolved_reachable : reachable (prim := demo) demo_resolved.
Proof.
  apply (reachable_transact (prim := demo));
    [apply demo_one_vote_reachable | reflexivity..].
Qed.

Lemma demo_second_receipt :
  submitReceipt (prim := demo) (demo_receipt 10 8500) (signed_by 89) (MkEnv 77 true)
    demo_one_vote = Done tt demo_resolved.
Proof. vm_compute. reflexivity. Qed.

(** The scenario of the specification, for C1: the second agreeing receipt, of
    confidence 8500, resolves the wager for party 10 with that confidence. *)
Lemma resolution_iff_quorum_witness :
  reachable (prim := demo) demo_one_vote /\
  resolved (wager_at (storage demo_one_vote) 1) = false /\
  let w' := wager_at (storage demo_resolved) 1 in
  resolved w' = true /\ winner w' = 10 /\ winningConfidenceBps w' = 8500 /\
  finalize_count 1 (journal demo_resolved) = 1%nat.
Proof.
  split; [exact demo_one_vote_reachable|].
  destruct (resolution_iff_quorum (prim := demo) demo_one_vote demo_one_vote_reachable)
    as [_ Hstep].
  destruct (Hstep _ _ _ _ demo_second_receipt) as ((Hopen & _) & _ & Hquorum & _).
  split; [exact Hopen|]. apply Hquorum. vm_compute. discriminate.
Defined.

(** For C2: the resolving receipt pays 200, the two required stakes, to party 10,
    and the token is called on a storage in which both balances are zero. *)
Lemma finalize_pays_the_pot_witness :
  reachable (prim := demo) demo_one_vote /\
  exists signer,
    journal demo_resolved =
      journal demo_one_vote ++
        [receipt_entry signer (demo_receipt 10 8500);
         Resolved 1 10 8500;
         TokenTransfer 50 10 200 (storage demo_resolved);
         Payout 1 10 200] /\
    stakeA (wager_at (storage demo_resolved) 1) = 0 /\
    stakeB (wager_at (storage demo_resolved) 1) = 0.
Proof.
  split; [exact demo_one_vote_reachable|].
  destruct (finalize_pays_the_pot (prim := demo) demo_one_vote) as (_ & _ & Hpay).
  destruct (Hpay demo_one_vote_reachable _ _ _ _ demo_second_receipt)
    as (signer & Hjournal & _ & _ & HzeroA & HzeroB); [reflexivity|].
  exists signer. split; [exact Hjournal|]. split; [exact HzeroA | exact HzeroB].
Defined.

(** For C3: on the funded wager a receipt of confidence 7000, below the
    threshold of 8000, gets past the first five guards and fails at the sixth. *)
Lemma submitReceipt_check_order_witness :
  submitReceipt (prim := demo) (demo_receipt 10 7000) (signed_by 88) (MkEnv 77 true)
    demo_funded = Reverted ConfidenceTooLow demo_funded.
Proof.
  destruct (submitReceipt_check_order (prim := demo) (demo_receipt 10 7000) (signed_by 88)
              (MkEnv 77 true) demo_funded) as [_ Hexists].
  destruct Hexists as [_ Hfunded]; [vm_compute; discriminate|].
  destruct Hfunded as [_ Hopen]; [reflexivity | reflexivity |].
  destruct (Hopen eq_refl 88 eq_refl) as [_ Hpanel].
  destruct Hpanel as [_ Hfirst]; [vm_compute; reflexivity|].
  destruct Hfirst as [Hlow _]; [vm_compute; discriminate|].
  apply Hlow. vm_compute. reflexivity.
Defined.

(** For C6: address 5 is not on the panel of the funded wager. *)
Lemma submitReceipt_outsider_witness :
  submitReceipt (prim := demo) (demo_receipt 10 9000) (signed_by 5) (MkEnv 77 true)
    demo_funded = Reverted NotArbitrator demo_funded /\
  transact (prim := demo) (MkEnv 77 true)
    (SubmitReceipt (demo_receipt 10 9000) (signed_by 5)) demo_funded =
  (demo_funded, Some NotArbitrator).
Proof.
  destruct (submitReceipt_outsider (prim := demo) (demo_receipt 10 9000) (signed_by 5)
              (MkEnv 77 true) demo_funded 5) as [_ Hlist];
    [vm_compute; discriminate | reflexivity | reflexivity | reflexivity | reflexivity |].
  apply Hlist; [exact demo_funded_reachable|].
  vm_compute. intros [H|[H|[H|[]]]]; discriminate H.
Defined.

(** Arbitrator 88 has voted on the wager; once the wager is resolved, the very
    receipt that was counted is rejected with [AlreadyResolved], not with
    [DuplicateReceipt]. *)
Lemma resubmission_after_resolution :
  88 ∈ arbitratorHasVoted (wager_at (storage demo_resolved) 1) /\
  let out := snd (transact (prim := demo) (MkEnv 77 true)
                    (SubmitReceipt (demo_receipt 10 9000) (signed_by 88)) demo_resolved) in
  out = Some AlreadyResolved /\ out <> Some DuplicateReceipt.
Proof. vm_compute. split; [reflexivity|]. split; [reflexivity | discriminate]. Qed.

(** The stored panel size is the length of the list modulo 256: with 256
    arbitrators [n] is 0, and one counted vote is more than [n]. *)
Lemma panel_size_truncated :
  reachable (prim := demo) demo_large_voted /\
  let w := wager_at (storage demo_large_voted) 1 in
  length (arbitrators (profile w)) = 256%nat /\ n (profile w) = 0 /\
  votesForA w + votesForB w = 1.
Proof.
  split; [|vm_compute; auto].
  repeat (apply (reachable_transact (prim := demo)); [|reflexivity..]).
  apply reachable_genesis.
Qed.

(** Against C4 as stated, both of its clauses: a receipt of an arbitrator who
    has voted does not always fail with [DuplicateReceipt], and the votes
    counted are not always at most the stored [n]. *)
Lemma duplicate_after_resolution :
  (88 ∈ arbitratorHasVoted (wager_at (storage demo_resolved) 1) /\
   let out := snd (transact (prim := demo) (MkEnv 77 true)
                     (SubmitReceipt (demo_receipt 10 9000) (signed_by 88)) demo_resolved) in
   out = Some AlreadyResolved /\ out <> Some DuplicateReceipt) /\
  (reachable (prim := demo) demo_large_voted /\
   let w := wager_at (storage demo_large_voted) 1 in
   n (profile w) = 0 /\ votesForA w + votesForB w = 1 /\
   n (profile w) < votesForA w + votesForB w).
Proof.
  split; [exact resubmission_after_resolution|].
  destruct panel_size_truncated as (Hreach & _ & Hn & Hvotes).
  split; [exact Hreach|]. cbn zeta. rewrite Hn, Hvotes. repeat split.
Qed.

(** For C4: in the state with one counted vote, the same receipt of the same
    arbitrator is a duplicate, and the votes are within the panel size. *)
Lemma one_vote_per_arbitrator_witness :
  reachable (prim := demo) demo_one_vote /\
  transact (prim := demo) (MkEnv 77 true)
    (SubmitReceipt (demo_receipt 10 9000) (signed_by 88)) demo_one_vote =
  (demo_one_vote, Some DuplicateReceipt) /\
  let w := wager_at (storage demo_one_vote) 1 in
  votesForA w + votesForB w <= n (profile w).
Proof.
  split; [exact demo_one_vote_reachable|].
  destruct (one_vote_per_arbitrator (prim := demo) demo_one_vote demo_one_vote_reachable)
    as (Hcount & Hdup & _).
  split.
  - apply (Hdup (demo_receipt 10 9000) (signed_by 88) (MkEnv 77 true) 88);
      [reflexivity | vm_compute; reflexivity].
  - destruct (Hcount 1) as (_ & _ & _ & Hn).
    apply Hn; [vm_compute; split; discriminate | vm_compute; discriminate].
Defined.

(** For C5: the receipt of confidence 7000 is rejected and nothing changes;
    arbitrator 88 then submits one of confidence 9000, which is counted. *)
Lemma failed_receipt_changes_nothing_witness :
  let low := SubmitReceipt (demo_receipt 10 7000) (signed_by 88) in
  let good := SubmitReceipt (demo_receipt 10 9000) (signed_by 88) in
  transact (prim := demo) (MkEnv 77 true) low demo_funded =
    (demo_funded, Some ConfidenceTooLow) /\
  exists st2,
    transact (prim := demo) (MkEnv 77 true) good demo_funded = (st2, None) /\
    88 ∈ arbitratorHasVoted (wager_at (storage st2) 1) /\
    votesForA (wager_at (storage st2) 1) = 1.
Proof.
  intros low good.
  destruct (failed_receipt_changes_nothing (prim := demo) (demo_receipt 10 7000)
              (signed_by 88) (MkEnv 77 true) demo_funded) as (Hsame & _ & Hretry).
  cbn zeta in Hsame, Hretry. fold low in Hsame, Hretry.
  assert (Herr : snd (transact (prim := demo) (MkEnv 77 true) low demo_funded) =
                 Some ConfidenceTooLow) by (vm_compute; reflexivity).
  pose proof (Hsame _ Herr) as Hstate.
  split; [apply injective_projections; assumption|].
  destruct (Hretry 88 eq_refl Herr) as [_ Hagain]. rewrite Hstate in Hagain.
  destruct (Hagain (demo_receipt 10 9000) (signed_by 88) (MkEnv 77 true))
    as (st2 & Hrun & Hmarked & HvA & _);
    [reflexivity | reflexivity | vm_compute; discriminate | left; reflexivity
    | reflexivity | reflexivity | vm_compute; discriminate | reflexivity |].
  exists st2. split; [exact Hrun|]. split; [exact Hmarked|].
  match type of HvA with
  | _ = ?count => assert (Hcount : count = 1) by (vm_compute; reflexivity)
  end.
  rewrite Hcount in HvA. exact HvA.
Defined.

(** Against C7 as stated: side A of the resolved wager is funded, and a further
    [fundEscrow] for it fails with [AlreadyResolved], whether party 10 calls
    (claimed: [AlreadyFunded]) or the stranger 77 does (claimed: [NotParty]). *)
Lemma fundEscrow_after_resolution :
  let w := wager_at (storage demo_resolved) 1 in
  let by_party := snd (transact (prim := demo) (MkEnv 10 true) (FundEscrow 1 Side.A)
                         demo_resolved) in
  let by_stranger := snd (transact (prim := demo) (MkEnv 77 true) (FundEscrow 1 Side.A)
                            demo_resolved) in
  (partyA w = 10 /\ fundedA w = true) /\
  (by_party = Some AlreadyResolved /\ by_party <> Some AlreadyFunded) /\
  (by_stranger = Some AlreadyResolved /\ by_stranger <> Some NotParty).
Proof. vm_compute. repeat split; discriminate. Qed.

(** For C7: on the funded, open wager party 10 cannot fund side A again and the
    stranger 77 cannot fund it at all. *)
Lemma fundEscrow_guards_witness :
  fundEscrow (prim := demo) 1 Side.A (MkEnv 10 true) demo_funded =
    Reverted AlreadyFunded demo_funded /\
  fundEscrow (prim := demo) 1 Side.A (MkEnv 77 true) demo_funded =
    Reverted NotParty demo_funded /\
  fundEscrow (prim := demo) 1 Side.A (MkEnv 10 true) demo_resolved =
    Reverted AlreadyResolved demo_resolved.
Proof.
  split; [|split].
  - destruct (fundEscrow_guards (prim := demo) 1 Side.A (MkEnv 10 true) demo_funded)
      as [_ Hopen]; [vm_compute; discriminate|].
    destruct (Hopen eq_refl) as [_ Hfunded]. apply Hfunded; reflexivity.
  - destruct (fundEscrow_guards (prim := demo) 1 Side.A (MkEnv 77 true) demo_funded)
      as [_ Hopen]; [vm_compute; discriminate|].
    destruct (Hopen eq_refl) as [Hstranger _]. apply Hstranger. vm_compute. discriminate.
  - destruct (fundEscrow_guards (prim := demo) 1 Side.A (MkEnv 10 true) demo_resolved)
      as [Hdone _]; [vm_compute; discriminate|].
    apply Hdone. reflexivity.
Defined.

(** C8 on the code: a receipt of arbitrator 89 that claims a confidence of
    20000 basis points is accepted (nothing in [submitReceipt] bounds the
    confidence from above), and the wager it resolves stores 20000 as its
    winning confidence, where the claim has at most 10000. *)
Lemma confidence_above_10000 :
  let r := demo_receipt 10 20000 in
  let w' := wager_at (storage demo_overconfident) 1 in
  submitReceipt (prim := demo) r (signed_by 89) (MkEnv 77 true) demo_one_vote =
    Done tt demo_overconfident /\
  Receipt.confidenceBps r = 20000 /\
  resolved w' = true /\ winningConfidenceBps w' = 20000 /\
  10000 < winningConfidenceBps w'.
Proof. vm_compute. repeat split; reflexivity. Qed.

(** The confidence of the resolved wager of the scenario is between its
    threshold and the top of [uint96]. *)
Lemma accepted_confidence_range_witness :
  reachable (prim := demo) demo_resolved /\
  let w := wager_at (storage demo_resolved) 1 in
  confidenceThresholdBps (profile w) <= winningConfidenceBps w <= MAX_UINT96.
Proof.
  split; [exact demo_resolved_reachable|].
  destruct (accepted_confidence_range (prim := demo) demo_resolved) as [_ Hres].
  destruct (Hres demo_resolved_reachable 1) as [_ Hrange]; [reflexivity | exact Hrange].
Defined.

(** For C9: party 11 attaches evidence to the wager after it has been resolved;
    a stranger cannot. *)
Lemma attachEvidence_spec_witness :
  (exists st', attachEvidence 1 42 "ipfs://late" (MkEnv 11 true) demo_resolved =
               Done tt st' /\
               evidenceRoot (wager_at (storage st') 1) = 42 /\
               resolved (wager_at (storage st') 1) = true) /\
  attachEvidence 1 42 "ipfs://late" (MkEnv 77 true) demo_resolved =
    Reverted NotParty demo_resolved.
Proof.
  split.
  - destruct (attachEvidence_spec 1 42 "ipfs://late" (MkEnv 11 true) demo_resolved)
      as [Hparty _].
    destruct Hparty as (Hrun & Hw & _); [right; reflexivity|].
    eexists. split; [exact Hrun|]. cbn [storage]. rewrite Hw. split; reflexivity.
  - destruct (attachEvidence_spec 1 42 "ipfs://late" (MkEnv 77 true) demo_resolved)
      as [_ Hstranger].
    apply Hstranger. vm_compute. split; discriminate.
Defined.

(** For C10: no wager has been created under id 7. *)
Lemma attachEvidence_no_wager_witness :
  transact (prim := demo) (MkEnv 10 true) (AttachEvidence 7 42 "ipfs://none") demo_funded =
  (demo_funded, Some NotParty).
Proof.
  destruct (attachEvidence_no_wager (prim := demo) 7 42 "ipfs://none" (MkEnv 10 true)
              demo_funded demo_funded_reachable) as [_ Htx].
  - vm_compute. intros [_ H]. apply H. reflexivity.
  - vm_compute. discriminate.
  - exact Htx.
Defined.

(** * More of the contract on the concrete deployment *)

Lemma demo_twice_voted_reachable : reachable (prim := demo) demo_twice_voted.
Proof.
  repeat (apply (reachable_transact (prim := demo)); [|reflexivity..]).
  apply reachable_genesis.
Qed.

Lemma demo_self_resolved_reachable : reachable (prim := demo) demo_self_resolved.
Proof.
  repeat (apply (reachable_transact (prim := demo)); [|reflexivity..]).
  apply reachable_genesis.
Qed.

Lemma demo_created_counter : nextWagerId (storage demo_created) = 1.
Proof. vm_compute. reflexivity. Qed.

Lemma demo_created_1 : created (storage demo_created) 1.
Proof. unfold created. rewrite demo_created_counter. lia. Qed.

(** For X1: on the fresh deployment the wager of the scenario is created under
    id 1, and the same call with [m] zero is rejected. *)
Lemma createWager_decides_witness :
  (exists st',
     createWager 11 50 100 100 "claim" "sources" 8000 2 [88; 89; 90]
       (MkEnv 10 true) genesis = Done 1 st' /\
     nextWagerId (storage st') = 1) /\
  createWager 11 50 100 100 "claim" "sources" 8000 0 [88; 89; 90]
    (MkEnv 10 true) genesis = Reverted InvalidParams genesis.
Proof.
  split.
  - destruct (createWager_decides 11 50 100 100 "claim" "sources" 8000 2
                [88; 89; 90] (MkEnv 10 true) genesis) as [_ Hvalid].
    destruct Hvalid as [_ Hfits]; [repeat split; first [lia | discriminate]|].
    destruct Hfits as (st' & Hrun & Hnext & _); [cbn; unfold MAX_UINT256; lia|].
    exists st'. split; [exact Hrun | exact Hnext].
  - destruct (createWager_decides 11 50 100 100 "claim" "sources" 8000 0
                [88; 89; 90] (MkEnv 10 true) genesis) as [Hinvalid _].
    apply Hinvalid. intros (_ & _ & _ & _ & _ & _ & _ & Hm & _). by apply Hm.
Defined.

Lemma demo_createWager :
  createWager 11 50 100 100 "claim" "sources" 8000 2 [88; 89; 90]
    (MkEnv 10 true) genesis = Done 1 demo_created.
Proof. vm_compute. reflexivity. Qed.

(** For X2: the wager of the scenario read back right after its creation. *)
Lemma created_wager_reads_witness :
  getWagerCore 1 (MkEnv 77 true) demo_created =
    Done (10, 11, 50, 100, 100, false, false, false, 0, 0) demo_created /\
  getWagerProfile 1 (MkEnv 77 true) demo_created =
    Done (8000, 2, 3, [88; 89; 90]) demo_created /\
  getWagerVotes 1 (MkEnv 77 true) demo_created = Done (0, 0) demo_created.
Proof.
  destruct (created_wager_reads (prim := demo) 11 50 100 100 "claim" "sources" 8000 2
              [88; 89; 90] (MkEnv 10 true) genesis 1 demo_created (MkEnv 77 true)
              (reachable_genesis (prim := demo)) demo_createWager)
    as (Hcore & Hprofile & Hvotes & _).
  split; [exact Hcore|]. split; [exact Hprofile | exact Hvotes].
Defined.


(** For X4: the profile of the wager of the scenario. *)
Lemma created_wager_wellformed_witness :
  created (storage demo_created) 1 /\
  let p := profile (wager_at (storage demo_created) 1) in
  1 <= m p <= Z.of_nat (length (arbitrators p)) /\
  forall a, a ∈ isArbitrator p <-> In a (arbitrators p).
Proof.
  split; [exact demo_created_1|].
  destruct (created_wager_wellformed (prim := demo) demo_created 1
              demo_created_reachable demo_created_1)
    as ((Hm & _) & _ & _ & _ & _ & Hpanel).
  split; [exact Hm | exact Hpanel].
Defined.

(** For X5: no wager has id 7 on the deployment of the scenario. *)
Lemma unknown_wager_reads_witness :
  ~ created (storage demo_created) 7 /\
  getWagerCore 7 (MkEnv 77 true) demo_created =
    Done (0, 0, 0, 0, 0, false, false, false, 0, 0) demo_created.
Proof.
  assert (Hnone : ~ created (storage demo_created) 7)
    by (unfold created; rewrite demo_created_counter; lia).
  split; [exact Hnone|].
  by destruct (unknown_wager_reads (prim := demo) demo_created 7 (MkEnv 77 true)
                 demo_created_reachable Hnone) as [Hcore _].
Defined.

(** For X6: funding side A leaves the terms of the wager as they were. *)
Lemma created_wager_grows_witness :
  created (storage demo_created) 1 /\
  same_terms (wager_at (storage demo_created) 1) (wager_at (storage demo_half_funded) 1).
Proof.
  split; [exact demo_created_1|].
  by destruct (created_wager_grows (prim := demo) (MkEnv 10 true) (FundEscrow 1 Side.A)
                 demo_created 1 demo_created_1) as [Hterms _].
Defined.

Lemma demo_resolved_flag : resolved (wager_at (storage demo_resolved) 1) = true.
Proof. vm_compute. reflexivity. Qed.

(** For X7: on the resolved wager of the scenario a third receipt and a new
    funding both fail with [AlreadyResolved]. *)
Lemma resolved_is_final_witness :
  resolved (wager_at (storage demo_resolved) 1) = true /\
  fundEscrow (prim := demo) 1 Side.A (MkEnv 10 true) demo_resolved =
    Reverted AlreadyResolved demo_resolved /\
  submitReceipt (prim := demo) (demo_receipt 11 9000) (signed_by 90) (MkEnv 77 true)
    demo_resolved = Reverted AlreadyResolved demo_resolved.
Proof.
  split; [exact demo_resolved_flag|].
  destruct (resolved_is_final (prim := demo) demo_resolved 1 demo_resolved_reachable
              demo_resolved_flag) as (Hfund & Hsubmit & _).
  split; [apply Hfund | by apply Hsubmit].
Defined.





(** For X11: the resolved wager of the scenario was won by side A with
    exactly [m] votes. *)
Lemma winner_has_quorum_witness :
  created (storage demo_resolved) 1 /\
  let w := wager_at (storage demo_resolved) 1 in
  (winner w = partyA w /\ votesForA w = m (profile w) /\ votesForB w < m (profile w)) \/
  (winner w = partyB w /\ votesForB w = m (profile w) /\ votesForA w < m (profile w)).
Proof.
  assert (Hcr : created (storage demo_resolved) 1).
  { unfold created.
    assert (Hn : nextWagerId (storage demo_resolved) = 1) by (vm_compute; reflexivity).
    rewrite Hn. lia. }
  split; [exact Hcr|].
  destruct (winner_has_quorum (prim := demo) demo_resolved 1 demo_resolved_reachable Hcr)
    as (_ & _ & Hwinner).
  exact (Hwinner demo_resolved_flag).
Defined.

(** For X12: with address 88 listed twice and [m] two, the wager stays open
    after the only arbitrator has voted, and keeps both stakes. *)
Lemma unresolvable_wagers_witness :
  reachable (prim := demo) demo_twice_voted /\
  let w := wager_at (storage demo_twice_voted) 1 in
  resolved w = false /\
  stakeA w = (if fundedA w then stakeARequired w else 0) /\
  stakeB w = (if fundedB w then stakeBRequired w else 0).
Proof.
  split; [exact demo_twice_voted_reachable|].
  assert (Hcr : created (storage demo_twice_voted) 1).
  { unfold created.
    assert (Hn : nextWagerId (storage demo_twice_voted) = 1) by (vm_compute; reflexivity).
    rewrite Hn. lia. }
  destruct (unresolvable_wagers (prim := demo) demo_twice_voted 1
              demo_twice_voted_reachable Hcr) as (_ & _ & Hstuck).
  apply Hstuck. left. vm_compute. reflexivity.
Defined.

(** For X13: on the funded wager the contract has pulled 200 of token 50 more
    than it has paid. *)
Lemma escrow_ledger_witness :
  reachable (prim := demo) demo_funded /\
  total (inflow 50) (journal demo_funded) - total (outflow 50) (journal demo_funded) =
    escrowed 50 (storage demo_funded) /\
  pulls_to_this (prim := demo) (journal demo_funded).
Proof.
  split; [exact demo_funded_reachable|].
  destruct (escrow_ledger (prim := demo) demo_funded 50 demo_funded_reachable)
    as (Hbalance & _ & _ & Hpulls).
  split; [exact Hbalance | exact Hpulls].
Defined.




(** For X16: the receipt of arbitrator 88 sent by party 10 with a later
    timestamp does what the same receipt sent by address 77 does. *)
Lemma submitReceipt_relayed_witness :
  submitReceipt (prim := demo) (Receipt.MkReceipt 1 10 9000 "ipfs://trace" 1800000000)
    (signed_by 88) (MkEnv 10 true) demo_funded =
  submitReceipt (prim := demo) (demo_receipt 10 9000) (signed_by 88) (MkEnv 77 true)
    demo_funded.
Proof.
  apply (submitReceipt_relayed (prim := demo)); reflexivity.
Defined.

(** For X17: the encoding of the receipt of the scenario. *)
Lemma receipt_encoding_binds_witness :
  wf_receipt (demo_receipt 10 9000) = true /\
  length (abi_encode (receipt_words (prim := demo) (demo_receipt 10 9000))) = 192%nat /\
  abi_decode 6 (abi_encode (receipt_words (prim := demo) (demo_receipt 10 9000))) =
    [ARBITRATION_RECEIPT_TYPEHASH; 1; 10; 9000; 0; 1700000000].
Proof.
  assert (Hwf : wf_receipt (demo_receipt 10 9000) = true) by (vm_compute; reflexivity).
  split; [exact Hwf|].
  destruct (receipt_encoding_binds (prim := demo) (demo_receipt 10 9000)
              (demo_receipt 10 9000) Hwf Hwf) as ((_ & Hlen & Hread) & _).
  split; [exact Hlen | exact Hread].
Defined.

Lemma demo_self_parties :
  partyA (wager_at (storage demo_self_resolved) 1) =
  partyB (wager_at (storage demo_self_resolved) 1).
Proof. vm_compute. reflexivity. Qed.

(** For X18: party 10 against itself; the one vote is counted for side A. *)
Lemma self_wager_votes_witness :
  reachable (prim := demo) demo_self_resolved /\
  let w := wager_at (storage demo_self_resolved) 1 in
  partyA w = partyB w /\ votesForB w = 0.
Proof.
  split; [exact demo_self_resolved_reachable|].
  destruct (self_wager_votes (prim := demo) demo_self_resolved 1
              demo_self_resolved_reachable demo_self_parties) as [Hvotes _].
  split; [exact demo_self_parties | exact Hvotes].
Defined.
